(** * Neighborhood Components Analysis: the objective evaluator and its driver

    A shallow embedding of [metric_learn/nca.py].

    Numbers.  A Python float is modelled by [num]: a real number, or one of
    the three IEEE special values.  Arithmetic on finite values is exact
    (no rounding, no overflow, no signed zero); arithmetic on the special
    values follows IEEE 754, which is what numpy implements.

    Arrays.  A numpy array is a handle (base address, shape, orientation)
    into a store of flat row-major buffers.  Views ([.T], [reshape],
    [ravel], [[:, np.newaxis]]) share the buffer of the array they come
    from; every other numpy operation allocates a fresh buffer;
    [np.fill_diagonal] writes in place.

    Effects.  Python statements run in the monad [M]: a state monad over
    [world] (store, the NCA object, the console, the clock) with
    exceptions. *)

From Stdlib Require Import String Reals Lra Lia Bool Arith ZArith List.
Import ListNotations.

Set Implicit Arguments.

(** ** Floating-point values, idealised *)

Inductive num : Type :=
| Fin (r : R)
| PInf
| NInf
| NaN.

Definition isfinite (x : num) : bool :=
  match x with Fin _ => true | _ => false end.

(** The real number carried by a finite value. *)
Definition toR (x : num) : R :=
  match x with Fin r => r | _ => 0%R end.

Definition Rsign (r : R) : comparison :=
  if Rlt_dec 0 r then Gt else if Rlt_dec r 0 then Lt else Eq.

Definition Reqb (a b : R) : bool := if Req_dec_T a b then true else false.

Definition nneg (x : num) : num :=
  match x with
  | Fin r => Fin (- r)
  | PInf => NInf
  | NInf => PInf
  | NaN => NaN
  end.

Definition nadd (x y : num) : num :=
  match x, y with
  | Fin a, Fin b => Fin (a + b)
  | NaN, _ | _, NaN => NaN
  | PInf, NInf | NInf, PInf => NaN
  | PInf, _ | _, PInf => PInf
  | NInf, _ | _, NInf => NInf
  end.

Definition nsub (x y : num) : num := nadd x (nneg y).

(** An infinity of sign [pos] scaled by a real of sign [s]. *)
Definition inf_scaled (pos : bool) (s : comparison) : num :=
  match s with
  | Eq => NaN
  | Gt => if pos then PInf else NInf
  | Lt => if pos then NInf else PInf
  end.

Definition nmul (x y : num) : num :=
  match x, y with
  | Fin a, Fin b => Fin (a * b)
  | NaN, _ | _, NaN => NaN
  | PInf, Fin b => inf_scaled true (Rsign b)
  | NInf, Fin b => inf_scaled false (Rsign b)
  | Fin a, PInf => inf_scaled true (Rsign a)
  | Fin a, NInf => inf_scaled false (Rsign a)
  | PInf, PInf | NInf, NInf => PInf
  | PInf, NInf | NInf, PInf => NInf
  end.

(** Division as numpy does it: dividing by zero is not an exception, it
    yields an infinity (or NaN for 0/0). *)
Definition ndiv (x y : num) : num :=
  match x, y with
  | Fin a, Fin b =>
      match Rsign b with
      | Eq => inf_scaled true (Rsign a)
      | _ => Fin (a / b)
      end
  | NaN, _ | _, NaN => NaN
  | Fin _, _ => Fin 0
  | PInf, Fin b => match Rsign b with Lt => NInf | _ => PInf end
  | NInf, Fin b => match Rsign b with Lt => PInf | _ => NInf end
  | _, _ => NaN
  end.

Definition nexp (x : num) : num :=
  match x with
  | Fin r => Fin (exp r)
  | PInf => PInf
  | NInf => Fin 0
  | NaN => NaN
  end.

Definition nlog (x : num) : num :=
  match x with
  | Fin r =>
      match Rsign r with
      | Gt => Fin (ln r)
      | Eq => NInf
      | Lt => NaN
      end
  | PInf => PInf
  | NInf => NaN
  | NaN => NaN
  end.

(** [np.maximum] and [np.minimum]: NaN propagates. *)
Definition nmax (x y : num) : num :=
  match x, y with
  | NaN, _ | _, NaN => NaN
  | PInf, _ | _, PInf => PInf
  | NInf, z | z, NInf => z
  | Fin a, Fin b => Fin (Rmax a b)
  end.

Definition nmin (x y : num) : num :=
  match x, y with
  | NaN, _ | _, NaN => NaN
  | NInf, _ | _, NInf => NInf
  | PInf, z | z, PInf => z
  | Fin a, Fin b => Fin (Rmin a b)
  end.

(** [==] on floats: NaN differs from everything. *)
Definition num_eqb (x y : num) : bool :=
  match x, y with
  | Fin a, Fin b => Reqb a b
  | PInf, PInf | NInf, NInf => true
  | _, _ => false
  end.

(** A boolean used as a number. *)
Definition of_bool (b : bool) : num := if b then Fin 1 else Fin 0.

(** [EPS = np.finfo(float).eps]: the machine epsilon of a double, the gap
    between 1.0 and the next double, 2^-52. *)
Definition machine_eps : R := / 2 ^ 52.

Definition EPS : num := Fin machine_eps.

(** Sum of a list, and of [f 0 .. f (n-1)]. *)
Definition nsum_list (l : list num) : num := fold_left nadd l (Fin 0).

Definition nsum (n : nat) (f : nat -> num) : num :=
  nsum_list (map f (seq 0 n)).

(** The same over the reals. *)
Definition Rsum_list (l : list R) : R := fold_left Rplus l 0%R.

Definition Rsum (n : nat) (f : nat -> R) : R :=
  Rsum_list (map f (seq 0 n)).

(** ** Array values

    The logical content of a two-dimensional array: its shape and its
    elements in row-major order.  A one-dimensional array is a plain list. *)

Record parr (T : Type) : Type := mk_parr {
  pr : nat;
  pc : nat;
  pdata : list T
}.

Definition tab2 {T} (r c : nat) (f : nat -> nat -> T) : list T :=
  flat_map (fun i => map (f i) (seq 0 c)) (seq 0 r).

Definition tabulate {T} (r c : nat) (f : nat -> nat -> T) : parr T :=
  mk_parr r c (tab2 r c f).

Definition get {T} (d : T) (V : parr T) (i j : nat) : T :=
  nth (i * pc V + j) (pdata V) d.

Definition fget := @get num NaN.
Definition bget := @get bool false.

(** Exceptions.  All but the last two are Python's [ValueError]. *)
Inductive error : Type :=
| ReshapeError      (* cannot reshape array of size .. into shape .. *)
| BroadcastError    (* operands could not be broadcast together *)
| DotError          (* shapes not aligned *)
| ValidationError   (* raised by the input checks of sklearn *)
| ReductionError    (* zero-size array to reduction operation *)
| AssignError       (* nothing to assign from *)
| AttributeError    (* attribute read before it was set *)
| BadHandle.        (* an array handle that points nowhere *)

Definition result (A : Type) : Type := (error + A)%type.


Definition transpose_v {T} (d : T) (V : parr T) : parr T :=
  tabulate (pc V) (pr V) (fun i j => get d V j i).

(** [a.dot(b)] *)
Definition dot_v (a b : parr num) : result (parr num) :=
  if pc a =? pr b
  then inr (tabulate (pr a) (pc b)
              (fun i j => nsum (pc a) (fun l => nmul (fget a i l) (fget b l j))))
  else inl DotError.

(** numpy broadcasting of one dimension, and the index read along it. *)
Definition bdim (a b : nat) : option nat :=
  if a =? b then Some a
  else if a =? 1 then Some b
  else if b =? 1 then Some a
  else None.

Definition bidx (dim i : nat) : nat := if dim =? 1 then 0 else i.

Definition broadcast2 {A B C} (f : A -> B -> C) (da : A) (db : B)
    (a : parr A) (b : parr B) : result (parr C) :=
  match bdim (pr a) (pr b), bdim (pc a) (pc b) with
  | Some r, Some c =>
      inr (tabulate r c (fun i j =>
             f (get da a (bidx (pr a) i) (bidx (pc a) j))
               (get db b (bidx (pr b) i) (bidx (pc b) j))))
  | _, _ => inl BroadcastError
  end.

Definition map_v {A B} (f : A -> B) (a : parr A) : parr B :=
  mk_parr (pr a) (pc a) (map f (pdata a)).

(** [a.sum(axis=1, keepdims=True)], [a.sum(axis=0)], [a.sum()] *)
Definition sum_axis1_v (a : parr num) : parr num :=
  tabulate (pr a) 1 (fun i _ => nsum (pc a) (fun j => fget a i j)).

Definition sum_axis0_v (a : parr num) : list num :=
  map (fun j => nsum (pr a) (fun i => fget a i j)) (seq 0 (pc a)).

Definition sum_v (a : parr num) : num := nsum_list (pdata a).

(** Reduction of a non-empty list by [op], as [np.amax] and [np.amin] do. *)
Definition reduce (op : num -> num -> num) (l : list num) : num :=
  fold_left op (tl l) (hd NaN l).

(** [a.max(axis=0)], [a.min(axis=0)]: refused on an array without rows. *)
Definition reduce_axis0_v (op : num -> num -> num) (a : parr num)
  : result (list num) :=
  if pr a =? 0 then inl ReductionError
  else inr (map (fun j => reduce op (map (fun i => fget a i j) (seq 0 (pr a))))
              (seq 0 (pc a))).

(** [np.fill_diagonal(a, vals)]: the entries (t, t) receive the values of
    [vals], repeated as needed; a scalar is a one-element [vals]. *)
Definition fill_diagonal_v (vals : list num) (a : parr num)
  : result (parr num) :=
  match vals with
  | [] => if (pr a =? 0) || (pc a =? 0) then inr a else inl AssignError
  | _ => inr (tabulate (pr a) (pc a)
                (fun i j => if i =? j
                            then nth (i mod length vals) vals NaN
                            else fget a i j))
  end.

(** [pairwise_distances(Y, squared=True)] of sklearn: the input is checked
    (at least one row and one column, every value finite), then entry
    (i, j) is the squared Euclidean distance between rows i and j. *)
Definition pairwise_distances_v (Y : parr num) : result (parr num) :=
  if (1 <=? pr Y) && (1 <=? pc Y) && forallb isfinite (pdata Y)
  then inr (tabulate (pr Y) (pr Y)
              (fun i j => nsum (pc Y)
                 (fun l => let t := nsub (fget Y i l) (fget Y j l) in nmul t t)))
  else inl ValidationError.

(** [logsumexp(a, axis=1)] of scipy: per row, subtract the maximum (taken
    as 0 when it is not finite), exponentiate, sum, take the logarithm and
    add the maximum back. *)
Definition logsumexp_row (a : list num) : num :=
  let a_max := reduce nmax a in
  let a_max := if isfinite a_max then a_max else Fin 0 in
  let tmp := map (fun x => nexp (nsub x a_max)) a in
  let s := nsum_list tmp in
  nadd (nlog s) a_max.

Definition row_v {T} (d : T) (a : parr T) (i : nat) : list T :=
  map (fun j => get d a i j) (seq 0 (pc a)).

Definition logsumexp_v (a : parr num) : result (list num) :=
  if pc a =? 0 then inl ReductionError
  else inr (map (fun i => logsumexp_row (row_v NaN a i)) (seq 0 (pr a))).

(** [labels[:, np.newaxis] == labels[np.newaxis, :]] *)
Definition same_class_v (labels : list num) : parr bool :=
  let n := length labels in
  tabulate n n (fun i j => num_eqb (nth i labels NaN) (nth j labels NaN)).

(** ** The store, the object and the monad *)

(** Array handles.  A [vec] is one-dimensional.  A [mat] is
    two-dimensional; [tr] is set when it reads its buffer transposed. *)
Record vec : Type := mk_vec { vbase : nat; vlen : nat }.

Record mat : Type := mk_mat {
  mbase : nat;
  rows : nat;
  cols : nat;
  tr : bool
}.

(** The attributes of an [NCA] instance. *)
Record NCA : Type := mk_NCA {
  num_dims : option nat;
  max_iter : nat;
  tol : option num;
  verbose : bool;
  n_iter_ : option Z;
  transformer_ : option mat
}.

(** What reaches the console or the warning machinery. *)
Inductive event : Type :=
| PrintBanner
| PrintHeader
| PrintProgress (n_iter : Z) (loss : num) (seconds : num)
| Flush
| Warn (message : string)
| PrintTrainingTime (seconds : num).

Record world : Type := mk_world {
  fheap : list (list num);    (* buffers of float arrays *)
  bheap : list (list bool);   (* buffers of boolean arrays *)
  self : NCA;
  console : list event;       (* oldest event first *)
  clock : nat -> num;         (* what successive calls of time.time() read *)
  ticks : nat                 (* how many such calls were made *)
}.

(** A store is a stack of buffers; the address of a buffer is the height of
    the stack below it, so that addresses stay valid as the store grows. *)
Fixpoint lookup {B} (h : list B) (a : nat) : option B :=
  match h with
  | [] => None
  | b :: h' => if a =? length h' then Some b else lookup h' a
  end.

Fixpoint update {B} (h : list B) (a : nat) (b' : B) : list B :=
  match h with
  | [] => []
  | b :: h' => if a =? length h' then b' :: h' else b :: update h' a b'
  end.

Definition M (A : Type) : Type := world -> result A * world.

Definition ret {A} (a : A) : M A := fun w => (inr a, w).

Definition raise {A} (e : error) : M A := fun w => (inl e, w).

Definition bind {A B} (m : M A) (k : A -> M B) : M B :=
  fun w =>
    match m w with
    | (inr a, w') => k a w'
    | (inl e, w') => (inl e, w')
    end.

Notation "x <- m ;; k" := (bind m (fun x => k))
  (at level 61, m at next level, right associativity).
Notation "m ;;; k" := (bind m (fun _ => k))
  (at level 61, right associativity).

Definition liftE {A} (r : result A) : M A := fun w => (r, w).

Definition set_fheap (h : list (list num)) (w : world) : world :=
  mk_world h (bheap w) (self w) (console w) (clock w) (ticks w).

Definition set_bheap (h : list (list bool)) (w : world) : world :=
  mk_world (fheap w) h (self w) (console w) (clock w) (ticks w).

Definition set_self (s : NCA) (w : world) : world :=
  mk_world (fheap w) (bheap w) s (console w) (clock w) (ticks w).

Definition load_f (a : nat) : M (list num) :=
  fun w => match lookup (fheap w) a with
           | Some b => (inr b, w)
           | None => (inl BadHandle, w)
           end.

Definition load_b (a : nat) : M (list bool) :=
  fun w => match lookup (bheap w) a with
           | Some b => (inr b, w)
           | None => (inl BadHandle, w)
           end.

Definition alloc_f (b : list num) : M nat :=
  fun w => (inr (length (fheap w)), set_fheap (b :: fheap w) w).

Definition alloc_b (b : list bool) : M nat :=
  fun w => (inr (length (bheap w)), set_bheap (b :: bheap w) w).

Definition store_f (a : nat) (b : list num) : M unit :=
  fun w => (inr tt, set_fheap (update (fheap w) a b) w).

Definition get_self : M NCA := fun w => (inr (self w), w).

Definition put_self (s : NCA) : M unit := fun w => (inr tt, set_self s w).

Definition print (e : event) : M unit :=
  fun w => (inr tt, mk_world (fheap w) (bheap w) (self w) (console w ++ [e])
                             (clock w) (ticks w)).

(** [time.time()] *)
Definition time_time : M num :=
  fun w => (inr (clock w (ticks w)),
            mk_world (fheap w) (bheap w) (self w) (console w)
                     (clock w) (S (ticks w))).

(** Attribute access on [self]. *)
Definition get_n_iter_ : M Z :=
  s <- get_self ;;
  match n_iter_ s with
  | Some k => ret k
  | None => raise AttributeError
  end.

Definition with_n_iter_ (k : Z) (s : NCA) : NCA :=
  mk_NCA (num_dims s) (max_iter s) (tol s) (verbose s) (Some k)
         (transformer_ s).

Definition with_transformer_ (m : mat) (s : NCA) : NCA :=
  mk_NCA (num_dims s) (max_iter s) (tol s) (verbose s) (n_iter_ s) (Some m).

Definition set_n_iter_ (k : Z) : M unit :=
  s <- get_self ;; put_self (with_n_iter_ k s).

Definition set_transformer_ (m : mat) : M unit :=
  s <- get_self ;; put_self (with_transformer_ m s).

(** ** Arrays in the store *)

(** What a handle shows of a buffer. *)
Definition view {T} (d : T) (m : mat) (buf : list T) : parr T :=
  if tr m
  then tabulate (rows m) (cols m) (fun i j => nth (j * rows m + i) buf d)
  else mk_parr (rows m) (cols m) buf.

(** The buffer that shows as [V] through the handle [m]. *)
Definition unview {T} (d : T) (m : mat) (V : parr T) : list T :=
  if tr m then pdata (transpose_v d V) else pdata V.

Definition snap (m : mat) : M (parr num) :=
  buf <- load_f (mbase m) ;; ret (view NaN m buf).

Definition bsnap (m : mat) : M (parr bool) :=
  buf <- load_b (mbase m) ;; ret (view false m buf).

Definition vsnap (v : vec) : M (list num) := load_f (vbase v).

Definition new_mat (V : parr num) : M mat :=
  a <- alloc_f (pdata V) ;; ret (mk_mat a (pr V) (pc V) false).

Definition new_bmat (V : parr bool) : M mat :=
  a <- alloc_b (pdata V) ;; ret (mk_mat a (pr V) (pc V) false).

Definition new_vec (l : list num) : M vec :=
  a <- alloc_f l ;; ret (mk_vec a (length l)).

(** Views: no buffer is touched. *)

(** [m.T] *)
Definition T_ (m : mat) : mat :=
  mk_mat (mbase m) (cols m) (rows m) (negb (tr m)).

(** [v[:, np.newaxis]] *)
Definition newaxis_col (v : vec) : mat := mk_mat (vbase v) (vlen v) 1 false.

(** [v.reshape(-1, d)] *)
Definition reshape (v : vec) (d : nat) : M mat :=
  if (d =? 0) || negb (vlen v mod d =? 0)
  then raise ReshapeError
  else ret (mk_mat (vbase v) (vlen v / d) d false).

(** [m.ravel()]: a view when [m] is contiguous, a copy otherwise. *)
Definition ravel (m : mat) : M vec :=
  if tr m
  then V <- snap m ;; new_vec (pdata V)
  else ret (mk_vec (mbase m) (rows m * cols m)).

(** Operations that build a new array. *)

Definition np_dot (a b : mat) : M mat :=
  va <- snap a ;; vb <- snap b ;; V <- liftE (dot_v va vb) ;; new_mat V.

(** [a op b] with broadcasting *)
Definition np_binop (op : num -> num -> num) (a b : mat) : M mat :=
  va <- snap a ;; vb <- snap b ;;
  V <- liftE (broadcast2 op NaN NaN va vb) ;; new_mat V.

(** [a * mask] for a boolean [mask] *)
Definition np_mul_mask (a mask : mat) : M mat :=
  va <- snap a ;; vm <- bsnap mask ;;
  V <- liftE (broadcast2 (fun x b => nmul x (of_bool b)) NaN false va vm) ;;
  new_mat V.

(** [f(a)] elementwise, [c * a] *)
Definition np_map (f : num -> num) (a : mat) : M mat :=
  va <- snap a ;; new_mat (map_v f va).

Definition np_vmap (f : num -> num) (v : vec) : M vec :=
  l <- vsnap v ;; new_vec (map f l).

(** [a op b] for one-dimensional arrays of one length *)
Definition np_vbinop (op : num -> num -> num) (a b : vec) : M vec :=
  la <- vsnap a ;; lb <- vsnap b ;;
  if length la =? length lb
  then new_vec (map (fun p => op (fst p) (snd p)) (combine la lb))
  else raise BroadcastError.

Definition np_sum_axis1_keepdims (a : mat) : M mat :=
  va <- snap a ;; new_mat (sum_axis1_v va).

Definition np_sum_axis0 (a : mat) : M vec :=
  va <- snap a ;; new_vec (sum_axis0_v va).

Definition np_sum (a : mat) : M num :=
  va <- snap a ;; ret (sum_v va).

Definition np_reduce_axis0 (op : num -> num -> num) (a : mat) : M vec :=
  va <- snap a ;; l <- liftE (reduce_axis0_v op va) ;; new_vec l.

Definition np_zeros (r c : nat) : M mat :=
  new_mat (tabulate r c (fun _ _ => Fin 0)).

Definition pairwise_distances (Y : mat) : M mat :=
  vy <- snap Y ;; V <- liftE (pairwise_distances_v vy) ;; new_mat V.

Definition logsumexp (a : mat) : M vec :=
  va <- snap a ;; l <- liftE (logsumexp_v va) ;; new_vec l.

(** In-place: [np.fill_diagonal(a, vals)] *)
Definition fill_diagonal_with (a : mat) (vals : list num) : M unit :=
  va <- snap a ;;
  V <- liftE (fill_diagonal_v vals va) ;;
  store_f (mbase a) (unview NaN a V).

Definition fill_diagonal (a : mat) (vals : vec) : M unit :=
  l <- vsnap vals ;; fill_diagonal_with a l.

(** ** The objective evaluator: [NCA._loss_grad_lbfgs] *)

(** Lines 160-162, under the comment "Compute softmax distances": from the
    embedded data to the matrix of neighbour probabilities. *)
Definition softmax_distances (X_embedded : mat) : M mat :=
  p_ij <- pairwise_distances X_embedded ;;
  fill_diagonal_with p_ij [PInf] ;;;
  neg1 <- np_map nneg p_ij ;;
  neg2 <- np_map nneg p_ij ;;
  lse <- logsumexp neg2 ;;
  arg <- np_binop nsub neg1 (newaxis_col lse) ;;
  np_map nexp arg.

Definition _loss_grad_lbfgs (A : vec) (X : mat) (mask : mat) (sign : num)
  : M (num * vec) :=
  n0 <- get_n_iter_ ;;
  s <- get_self ;;
  (if (n0 =? 0)%Z && verbose s
   then print PrintBanner ;;; print PrintHeader
   else ret tt) ;;;
  start_time <- time_time ;;
  A <- reshape A (cols X) ;;
  X_embedded <- np_dot X (T_ A) ;;
  (* Compute softmax distances *)
  p_ij <- softmax_distances X_embedded ;;
  (* Compute loss *)
  masked_p_ij <- np_mul_mask p_ij mask ;;
  p <- np_sum_axis1_keepdims masked_p_ij ;;
  loss <- np_sum p ;;
  (* Compute gradient of loss w.r.t. the transform *)
  pp <- np_binop nmul p_ij p ;;
  weighted_p_ij <- np_binop nsub masked_p_ij pp ;;
  weighted_p_ij_sym <- np_binop nadd weighted_p_ij (T_ weighted_p_ij) ;;
  colsum <- np_sum_axis0 weighted_p_ij ;;
  ncolsum <- np_vmap nneg colsum ;;
  fill_diagonal weighted_p_ij_sym ncolsum ;;;
  yw <- np_dot (T_ X_embedded) weighted_p_ij_sym ;;
  ywx <- np_dot yw X ;;
  gradient <- np_map (nmul (Fin 2)) ywx ;;
  (if verbose s
   then t <- time_time ;;
        n_iter <- get_n_iter_ ;;
        print (PrintProgress n_iter loss (nsub t start_time)) ;;;
        print Flush
   else ret tt) ;;;
  n_iter <- get_n_iter_ ;;
  set_n_iter_ (n_iter + 1) ;;;
  flat <- ravel gradient ;;
  sgrad <- np_vmap (nmul sign) flat ;;
  ret (nmul sign loss, sgrad).

(** ** The driver: [NCA.fit] *)

(** Modelled from the spec: [MahalanobisMixin._prepare_inputs] of
    base_metric.py, which is not among the sources.  The spec describes it
    as the external validation that enforces a minimum number of samples,
    consistent shapes and finite real values, and hands the data and the
    labels on. *)
Definition _prepare_inputs (X : mat) (y : vec) (ensure_min_samples : nat)
  : M (mat * vec) :=
  vx <- snap X ;;
  ly <- vsnap y ;;
  if (ensure_min_samples <=? rows X)
     && (length (pdata vx) =? rows X * cols X)
     && (length ly =? rows X) && (vlen y =? rows X)
     && forallb isfinite (pdata vx) && forallb isfinite ly
  then ret (X, y)
  else raise ValidationError.

(** Lines 107-109, under the comment "Initialize A to a scaling matrix". *)
Definition initial_transform (X : mat) (num_dims : nat) : M mat :=
  A <- np_zeros num_dims (cols X) ;;
  hi <- np_reduce_axis0 nmax X ;;
  lo <- np_reduce_axis0 nmin X ;;
  range <- np_vbinop nsub hi lo ;;
  floored <- np_vmap (fun r => nmax r EPS) range ;;
  scale <- np_vmap (ndiv (Fin 1)) floored ;;
  fill_diagonal A scale ;;;
  ret A.

(** Line 112: [labels[:, np.newaxis] == labels[np.newaxis, :]] *)
Definition same_class_mask (labels : vec) : M mat :=
  l <- vsnap labels ;; new_bmat (same_class_v l).

(** What [scipy.optimize.minimize] returns. *)
Record OptimizeResult : Type := mk_OptimizeResult {
  x : list num;
  nit : Z;
  success : bool;
  message : string
}.

(** The minimizer is not part of the program.  All that matters of it here
    is how it talks to the objective: it asks for the objective and the
    gradient at points of its choice, any finite number of times, and then
    returns. *)
Inductive optimizer : Type :=
| Evaluate (x : list num) (k : num -> list num -> optimizer)
| Finish (res : OptimizeResult).

Fixpoint run_optimizer (fun_ : vec -> M (num * vec)) (t : optimizer)
  : M OptimizeResult :=
  match t with
  | Finish res => ret res
  | Evaluate x k =>
      xv <- new_vec x ;;
      r <- fun_ xv ;;
      g <- vsnap (snd r) ;;
      run_optimizer fun_ (k (fst r) g)
  end.

Section Fit.

(** [minimize(method='L-BFGS-B', jac=True, x0=.., options=dict(maxiter=..),
    tol=..)] as a function of the starting point, the iteration cap and
    the tolerance. *)
Variable minimize : list num -> nat -> option num -> optimizer.

(** Lines 98-124: everything up to and including the call of the
    optimizer.  Hands on what the rest of [fit] uses. *)
Definition fit_optimize (X : mat) (y : vec)
  : M (mat * num * OptimizeResult) :=
  Xl <- _prepare_inputs X y 2 ;;
  let X := fst Xl in
  let labels := snd Xl in
  let d := cols X in
  s <- get_self ;;
  let num_dims := match num_dims s with None => d | Some k => k end in
  (* Measure the total training time *)
  train_time <- time_time ;;
  (* Initialize A to a scaling matrix *)
  A <- initial_transform X num_dims ;;
  (* Run NCA *)
  mask <- same_class_mask labels ;;
  x0 <- ravel A ;;
  (* Call the optimizer *)
  set_n_iter_ 0 ;;;
  x0 <- vsnap x0 ;;
  opt_result <- run_optimizer
                  (fun a => _loss_grad_lbfgs a X mask (Fin (-1)))
                  (minimize x0 (max_iter s) (tol s)) ;;
  ret (X, train_time, opt_result).

(** Lines 126-141: what [fit] does once the optimizer has returned. *)
Definition fit_finish (X : mat) (train_time : num)
    (opt_result : OptimizeResult) : M unit :=
  xr <- new_vec (x opt_result) ;;
  L <- reshape xr (cols X) ;;
  set_transformer_ L ;;;
  set_n_iter_ (nit opt_result) ;;;
  (* Stop timer *)
  t <- time_time ;;
  let train_time := nsub t train_time in
  s <- get_self ;;
  (if verbose s
   then (* Warn the user if the algorithm did not converge *)
        (if negb (success opt_result)
         then print (Warn ("[NCA] NCA did not converge: "
                             ++ message opt_result))
         else ret tt) ;;;
        print (PrintTrainingTime train_time)
   else ret tt) ;;;
  ret tt.

Definition fit (X : mat) (y : vec) : M unit :=
  r <- fit_optimize X y ;;
  fit_finish (fst (fst r)) (snd (fst r)) (snd r).

End Fit.

(** ** The values computed

    What [softmax_distances], [_loss_grad_lbfgs] and [initial_transform]
    compute, as functions of the contents of their arguments.  The lemmas
    [softmax_distances_run], [loss_grad_run] and [initial_transform_run]
    show that the programs above return these values. *)

Notation "x <~ r ;; k" :=
  (match r with inl e => inl e | inr x => k end)
  (at level 61, r at next level, right associativity).

Definition softmax_distances_v (Y : parr num) : result (parr num) :=
  D <~ pairwise_distances_v Y ;;
  D' <~ fill_diagonal_v [PInf] D ;;
  lse <~ logsumexp_v (map_v nneg D') ;;
  arg <~ broadcast2 nsub NaN NaN (map_v nneg D')
           (mk_parr (length lse) 1 lse) ;;
  inr (map_v nexp arg).

Definition loss_grad_v (a : list num) (X : parr num) (mask : parr bool)
    (sign : num) : result (num * list num) :=
  if (pc X =? 0) || negb (length a mod pc X =? 0) then inl ReshapeError
  else
    Y <~ dot_v X (transpose_v NaN (mk_parr (length a / pc X) (pc X) a)) ;;
    P <~ softmax_distances_v Y ;;
    PM <~ broadcast2 (fun x b => nmul x (of_bool b)) NaN false P mask ;;
    pp <~ broadcast2 nmul NaN NaN P (sum_axis1_v PM) ;;
    W <~ broadcast2 nsub NaN NaN PM pp ;;
    Ws <~ broadcast2 nadd NaN NaN W (transpose_v NaN W) ;;
    Ws' <~ fill_diagonal_v (map nneg (sum_axis0_v W)) Ws ;;
    YW <~ dot_v (transpose_v NaN Y) Ws' ;;
    G <~ dot_v YW X ;;
    inr (nmul sign (sum_v (sum_axis1_v PM)),
         map (nmul sign) (map (nmul (Fin 2)) (pdata G))).

Definition initial_transform_v (X : parr num) (num_dims : nat)
  : result (parr num) :=
  hi <~ reduce_axis0_v nmax X ;;
  lo <~ reduce_axis0_v nmin X ;;
  if length hi =? length lo
  then fill_diagonal_v
         (map (ndiv (Fin 1))
            (map (fun r => nmax r EPS)
               (map (fun p => nsub (fst p) (snd p)) (combine hi lo))))
         (tabulate num_dims (pc X) (fun _ _ => Fin 0))
  else inl BroadcastError.

(** The events the evaluator emits: progress display. *)
Definition is_progress (e : event) : bool :=
  match e with
  | PrintBanner | PrintHeader | PrintProgress _ _ _ | Flush => true
  | _ => false
  end.

(** ** Growth of the store *)

(** [ext h h']: the store [h'] is [h] with new buffers on top. *)
Definition ext {B} (h h' : list B) : Prop := exists l, h' = l ++ h.

(** ** The objective in mathematical terms

    Section 4.2 of the specification, over the reals: matrices are
    functions of a row and a column index. *)

(** A matrix of finite values. *)
Definition fin_mat (r c : nat) (f : nat -> nat -> R) : parr num :=
  tabulate r c (fun i j => Fin (f i j)).

(** The real matrix held by an array, and by a flat buffer of row length
    [d]. *)
Definition Rmat (V : parr num) (i j : nat) : R := toR (fget V i j).

Definition Rflat (d : nat) (a : list num) (i j : nat) : R :=
  toR (nth (i * d + j) a NaN).

(** Matrix product, the inner dimension being [m]. *)
Definition Rmatmul (m : nat) (A B : nat -> nat -> R) (i j : nat) : R :=
  Rsum m (fun l => A i l * B l j)%R.

(** Squared Euclidean distance between rows [i] and [j] of [Y]. *)
Definition sq_dist (k : nat) (Y : nat -> nat -> R) (i j : nat) : R :=
  Rsum k (fun a => (Y i a - Y j a) ^ 2)%R.

(** Row-wise softmax of [-D] where the diagonal of [D] counts as
    +infinity: entry (i, i) is 0, and row [i] is normalised by the sum over
    the other columns. *)
Definition softmax_Z (n : nat) (D : nat -> nat -> R) (i : nat) : R :=
  Rsum n (fun l => if i =? l then 0 else exp (- D i l))%R.

Definition softmax_P (n : nat) (D : nat -> nat -> R) (i j : nat) : R :=
  if i =? j then 0%R else (exp (- D i j) / softmax_Z n D i)%R.

Section Spec.

Variables n d k : nat.
Variable X : nat -> nat -> R.      (* the data, n x d *)
Variable L : nat -> nat -> R.      (* the transform, k x d *)
Variable M : nat -> nat -> bool.   (* the same-class mask, n x n *)

Local Open Scope R_scope.

(** Step 2: Y = X L^T *)
Definition spec_Y (i a : nat) : R := Rsum d (fun b => X i b * L a b).

(** Step 3: squared Euclidean distances between rows of Y *)
Definition spec_D : nat -> nat -> R := sq_dist k spec_Y.

(** Step 4: row-wise softmax of -D, the diagonal of D being +infinity *)
Definition spec_P : nat -> nat -> R := softmax_P n spec_D.

(** Step 5: P' = P (.) M *)
Definition spec_PM (i j : nat) : R :=
  spec_P i j * (if M i j then 1 else 0).

(** Step 6: row sums and loss *)
Definition spec_p (i : nat) : R := Rsum n (fun j => spec_PM i j).

Definition spec_loss : R := Rsum n (fun i => Rsum n (fun j => spec_PM i j)).

(** Step 7: the gradient *)
Definition spec_W (i j : nat) : R := spec_PM i j - spec_P i j * spec_p i.

Definition spec_Wsym (i j : nat) : R :=
  if (i =? j)%nat
  then - Rsum n (fun r => spec_W r i)
  else spec_W i j + spec_W j i.

Definition spec_gradient (a b : nat) : R :=
  2 * Rmatmul n (Rmatmul n (fun a i => spec_Y i a) spec_Wsym) X a b.

End Spec.

(** ** Valid calls of the evaluator

    The transform and the data of a valid call: [A] is a flat array of
    [k * d] finite values, [X] an array of [n] rows and [d] columns of
    finite values, with at least two samples (as [fit] enforces) and at
    least one feature and one embedding dimension.  [a] and [bx] are the
    buffers the two arrays read. *)
Record valid_data (w : world) (A : vec) (X : mat) (n d k : nat)
    (a bx : list num) : Prop := mk_valid_data {
  vd_n : 2 <= n;
  vd_d : 1 <= d;
  vd_k : 1 <= k;
  vd_A : lookup (fheap w) (vbase A) = Some a;
  vd_vlen : vlen A = k * d;
  vd_alen : length a = k * d;
  vd_afin : forallb isfinite a = true;
  vd_X : lookup (fheap w) (mbase X) = Some bx;
  vd_rows : rows X = n;
  vd_cols : cols X = d;
  vd_xlen : length bx = n * d;
  vd_xfin : forallb isfinite bx = true
}.

(** The mask of a valid call: a boolean array of [n] rows and columns. *)
Record valid_mask (w : world) (mask : mat) (n : nat) (bm : list bool)
  : Prop := mk_valid_mask {
  vm_M : lookup (bheap w) (mbase mask) = Some bm;
  vm_rows : rows mask = n;
  vm_cols : cols mask = n;
  vm_len : length bm = n * n
}.

(** The counter exists: [fit] sets it before the first call. *)
Definition counter_set (w : world) : Prop :=
  exists it, n_iter_ (self w) = Some it.

Definition valid_call (w : world) (A : vec) (X mask : mat) (n d k : nat)
    (a bx : list num) (bm : list bool) : Prop :=
  valid_data w A X n d k a bx /\ valid_mask w mask n bm /\ counter_set w.

(** Two runs of the evaluator with the same outcome: the same exception,
    or the same objective and gradients of the same length and contents. *)
Definition same_outcome (o1 o2 : result (num * vec) * world) : Prop :=
  match fst o1, fst o2 with
  | inl e1, inl e2 => e1 = e2
  | inr (l1, g1), inr (l2, g2) =>
      l1 = l2 /\ vlen g1 = vlen g2 /\
      exists g, lookup (fheap (snd o1)) (vbase g1) = Some g /\
                lookup (fheap (snd o2)) (vbase g2) = Some g
  | _, _ => False
  end.

(** A dimension [r] that numpy broadcasts against [n]. *)
Definition broadcastable (n r : nat) : Prop := r = n \/ r = 1.



(** ** A small instance

    Two samples 0 and 1 of one feature and of different classes, the
    transform [1.0]; the store also holds a mask of one row. *)
Definition ex_self : NCA := mk_NCA None 100 None false (Some 0%Z) None.

Definition ex_world : world :=
  mk_world [[Fin 0; Fin 1]; [Fin 1]]
           [[true; true]; [true; false; false; true]]
           ex_self [] (fun _ => Fin 0) 0.

Definition ex_A : vec := mk_vec 0 1.
Definition ex_X : mat := mk_mat 1 2 1 false.
Definition ex_mask : mat := mk_mat 0 2 2 false.

(** ** The initial transform in mathematical terms

    Section 4.1 of the specification: zero everywhere except on the
    diagonal, where it is the reciprocal of the range of the feature,
    floored at [eps]. *)
Definition Rcolmax (n : nat) (X : nat -> nat -> R) (j : nat) : R :=
  fold_left Rmax (map (fun i => X i j) (seq 1 (n - 1))) (X 0 j).

Definition Rcolmin (n : nat) (X : nat -> nat -> R) (j : nat) : R :=
  fold_left Rmin (map (fun i => X i j) (seq 1 (n - 1))) (X 0 j).

Definition spec_L0 (n : nat) (X : nat -> nat -> R) (eps : R) (i j : nat)
  : R :=
  if i =? j then (1 / Rmax (Rcolmax n X j - Rcolmin n X j) eps)%R else 0%R.





(** ** The optimizer and [fit]

    What is assumed of the minimizer: on a problem of [len] parameters it
    asks for the objective at finite points of that length and returns a
    point of that length, as long as it is answered with finite values. *)
Inductive well_behaved (len : nat) : optimizer -> Prop :=
| wb_Finish res :
    length (x res) = len -> well_behaved len (Finish res)
| wb_Evaluate x0 k :
    length x0 = len -> forallb isfinite x0 = true ->
    (forall f g, isfinite f = true -> length g = len ->
                 forallb isfinite g = true -> well_behaved len (k f g)) ->
    well_behaved len (Evaluate x0 k).

(** [returns_after t res c]: the optimizer [t] can return [res], after
    [c] evaluations of the objective. *)
Inductive returns_after : optimizer -> OptimizeResult -> nat -> Prop :=
| ra_Finish res : returns_after (Finish res) res 0
| ra_Evaluate x0 k f g res c :
    returns_after (k f g) res c -> returns_after (Evaluate x0 k) res (S c).

(** The arguments of a valid call of [fit]: finite data of [n >= 2] rows
    and [d >= 1] columns, and as many finite labels. *)
Record valid_fit_input (w : world) (X : mat) (y : vec) (n d : nat)
    (bx ly : list num) : Prop := mk_valid_fit_input {
  vf_n : 2 <= n;
  vf_d : 1 <= d;
  vf_X : lookup (fheap w) (mbase X) = Some bx;
  vf_rows : rows X = n;
  vf_cols : cols X = d;
  vf_xlen : length bx = n * d;
  vf_xfin : forallb isfinite bx = true;
  vf_y : lookup (fheap w) (vbase y) = Some ly;
  vf_vlen : vlen y = n;
  vf_ylen : length ly = n;
  vf_yfin : forallb isfinite ly = true
}.

(** The embedding dimension [fit] uses. *)
Definition embedding_dim (s : NCA) (d : nat) : nat :=
  match num_dims s with None => d | Some k => k end.

(** What [fit] sends to the console once the optimizer has returned. *)
Definition finish_events (s : NCA) (res : OptimizeResult) (seconds : num)
  : list event :=
  if verbose s
  then (if negb (success res)
        then [Warn ("[NCA] NCA did not converge: " ++ message res)]
        else [])
       ++ [PrintTrainingTime seconds]
  else [].


(** The sentence of the specification on the counter, as it is written,
    for the final assignment of [fit]: the value it writes is no less than
    the value the counter had when the optimizer returned. *)
Definition final_assignment_monotone
    (minimize : list num -> nat -> option num -> optimizer)
    (X : mat) (y : vec) (w : world) : Prop :=
  forall r w1 w2 a b,
    fit_optimize minimize X y w = (inr r, w1) ->
    fit_finish (fst (fst r)) (snd (fst r)) (snd r) w1 = (inr tt, w2) ->
    n_iter_ (self w1) = Some a -> n_iter_ (self w2) = Some b ->
    (a <= b)%Z.

(** An instance of [fit]: the two samples of the instance above with their
    labels 0 and 1, a new estimator with the default settings, an
    optimizer that gives up at once without success, and one that
    evaluates the starting point and reports convergence after 0
    iterations. *)
Definition ex_new_self : NCA := mk_NCA None 100 None false None None.

Definition ex_fit_world : world :=
  mk_world [[Fin 0; Fin 1]; [Fin 0; Fin 1]] [] ex_new_self []
           (fun _ => Fin 0) 0.

Definition ex_fit_X : mat := mk_mat 0 2 1 false.
Definition ex_fit_y : vec := mk_vec 1 2.


Definition ex_one_call_minimize (x0 : list num) (_ : nat) (_ : option num)
  : optimizer :=
  Evaluate x0 (fun _ _ =>
    Finish (mk_OptimizeResult x0 0 true
              "CONVERGENCE: NORM_OF_PROJECTED_GRADIENT_<=_PGTOL")).

(** * More of the code *)

(** ** The constructor: [NCA.__init__]

    Lines 87-91.  The four settings become attributes.  The [preprocessor]
    is handed to the base class, which is not among the sources; nothing
    in this file reads it.  Neither [n_iter_] nor [transformer_] exists
    before [fit] has run. *)
Definition __init__ (num_dims : option nat) (max_iter : nat)
    (tol : option num) (verbose : bool) : NCA :=
  mk_NCA num_dims max_iter tol verbose None None.

(** ** What no run changes *)

(** [grown l l']: the list [l'] is [l] with new elements at its end. *)
Definition grown {B} (l l' : list B) : Prop := exists es, l' = l ++ es.

(** [kept w0 w]: the world [w] is [w0] after some statements of this file
    have run.  The buffers of [w0] are all there with their contents, the
    constructor arguments are as they were, the console has only grown, and
    has not grown at all unless [verbose] is set. *)
Record kept (w0 w : world) : Prop := mk_kept {
  k_fheap : ext (fheap w0) (fheap w);
  k_bheap : ext (bheap w0) (bheap w);
  k_num_dims : num_dims (self w) = num_dims (self w0);
  k_max_iter : max_iter (self w) = max_iter (self w0);
  k_tol : tol (self w) = tol (self w0);
  k_verbose : verbose (self w) = verbose (self w0);
  k_clock : clock w = clock w0;
  k_ticks : ticks w0 <= ticks w;
  k_console : grown (console w0) (console w);
  k_quiet : verbose (self w0) = false -> console w = console w0
}.

(** The same, and the learned transform has not been assigned. *)
Definition untouched (w0 w : world) : Prop :=
  kept w0 w /\ transformer_ (self w) = transformer_ (self w0).

(** An array allocated after [w0]. *)
Definition fresh_m (w0 : world) (m : mat) : Prop :=
  length (fheap w0) <= mbase m.

Definition fresh_v (w0 : world) (v : vec) : Prop :=
  length (fheap w0) <= vbase v.

(** [preserves I m Q]: run in a world that satisfies [I], the statement
    [m] ends in a world that satisfies [I], whether it returns or raises,
    and what it returns satisfies [Q]. *)
Definition preserves {A} (I : world -> Prop) (m : M A) (Q : A -> Prop)
  : Prop :=
  forall w, I w ->
    I (snd (m w)) /\
    match fst (m w) with inr a => Q a | inl _ => True end.

(** ** Labels, progress lines and the optimizer's result *)

(** Another encoding of the labels: every finite label [r] becomes
    [f r]. *)
Definition relabel (f : R -> R) (l : num) : num :=
  match l with Fin r => Fin (f r) | _ => l end.

(** The value of [loss] at line 168, before the sign is applied: what the
    progress line shows. *)
Definition objective_v (a : list num) (X : parr num) (mask : parr bool)
  : result num :=
  if (pc X =? 0) || negb (length a mod pc X =? 0) then inl ReshapeError
  else
    Y <~ dot_v X (transpose_v NaN (mk_parr (length a / pc X) (pc X) a)) ;;
    P <~ softmax_distances_v Y ;;
    PM <~ broadcast2 (fun x b => nmul x (of_bool b)) NaN false P mask ;;
    inr (sum_v (sum_axis1_v PM)).

(** What a call of the evaluator prints when [verbose] is set: the banner
    and the column header on call 0, then the progress line and the
    flush. *)
Definition progress_events (it : Z) (loss seconds : num) : list event :=
  (if (it =? 0)%Z then [PrintBanner; PrintHeader] else [])
  ++ [PrintProgress it loss seconds; Flush].

(** The progress lines of successive calls of the evaluator, the first
    with the counter at [it]: each line is given by the objective and the
    time it shows. *)
Fixpoint progress_log (it : Z) (lines : list (num * num)) : list event :=
  match lines with
  | [] => []
  | l :: rest =>
      progress_events it (fst l) (snd l) ++ progress_log (it + 1) rest
  end.

(** ** What [fit] computes

    The objective as the optimizer sees it: the pair the evaluator returns
    at a point [a], as a function of the data [X], the mask [M] and the
    sign [s]. *)
Definition objective (n d k : nat) (X : nat -> nat -> R)
    (M : nat -> nat -> bool) (s : R) (a : list num) : num * list num :=
  (Fin (s * spec_loss n d k X (Rflat d a) M),
   tab2 k d (fun i j => Fin (s * spec_gradient n d k X (Rflat d a) M i j))).

(** What an optimizer returns when its questions are answered by [obj]. *)
Fixpoint optimizer_result (obj : list num -> num * list num) (t : optimizer)
  : OptimizeResult :=
  match t with
  | Finish res => res
  | Evaluate x k => optimizer_result obj (k (fst (obj x)) (snd (obj x)))
  end.

(** The mask of line 112 as a relation on sample indices. *)
Definition label_eq (labels : list num) (i j : nat) : bool :=
  num_eqb (nth i labels NaN) (nth j labels NaN).

(** The result of the optimizer in [fit]: started at the initial
    transform, with the settings [max_iter] and [tol], on the negated
    objective of the data and the labels. *)
Definition fit_result (minimize : list num -> nat -> option num -> optimizer)
    (s : NCA) (n d : nat) (X : nat -> nat -> R) (labels : list num)
  : OptimizeResult :=
  let k := embedding_dim s d in
  optimizer_result (objective n d k X (label_eq labels) (-1))
    (minimize (tab2 k d (fun i j => Fin (spec_L0 n X machine_eps i j)))
              (max_iter s) (tol s)).

(** ** More instances

    The store of the small instance with three more arrays: the data
    moved by 5, the transform [-1.0] and the transform [0.0]. *)
Definition ex_world2 : world :=
  mk_world [[Fin 0]; [Fin (-1)]; [Fin 5; Fin 6]; [Fin 0; Fin 1]; [Fin 1]]
           [[true; true]; [true; false; false; true]]
           ex_self [] (fun _ => Fin 0) 0.

Definition ex_A_zero : vec := mk_vec 4 1.

(** The small instance with a transform that holds a NaN, and with a
    transform without entries. *)
Definition ex_nan_world : world :=
  mk_world [[Fin 0; Fin 1]; [NaN]]
           [[true; true]; [true; false; false; true]]
           ex_self [] (fun _ => Fin 0) 0.

Definition ex_empty_world : world :=
  mk_world [[Fin 0; Fin 1]; []]
           [[true; true]; [true; false; false; true]]
           ex_self [] (fun _ => Fin 0) 0.

Definition ex_A_empty : vec := mk_vec 0 0.


Definition ex_used_fit_world : world :=
  mk_world [[Fin 0; Fin 1]; [Fin 0; Fin 1]] []
           (mk_NCA None 100 None true (Some 7%Z) (Some (mk_mat 0 1 1 false)))
           [PrintBanner] (fun _ => Fin 0) 3.

(** The labels 0 and 1 and the same labels written 1 and 2. *)
Definition ex_label_world : world :=
  mk_world [[Fin (0 + 1); Fin (1 + 1)]; [Fin 0; Fin 1]] []
           ex_new_self [] (fun _ => Fin 0) 0.

Definition ex_y_plain : vec := mk_vec 0 2.
Definition ex_y_recoded : vec := mk_vec 1 2.

(** An optimizer whose line search diverges: it asks for the objective at
    a point of NaNs. *)
Definition ex_nan_minimize (x0 : list num) (_ : nat) (_ : option num)
  : optimizer :=
  Evaluate (map (fun _ => NaN) x0) (fun _ g =>
    Finish (mk_OptimizeResult g 1 false "ABNORMAL_TERMINATION_IN_LNSRCH")).


(** * Proofs *)

Unset Implicit Arguments.

Create HintDb store.

(** ** The store *)

Lemma lookup_lt {B} (h : list B) a b : lookup h a = Some b -> a < length h.
Proof.
  induction h as [|x0 h IH]; simpl; [discriminate|].
  destruct (Nat.eqb_spec a (length h)); [lia|].
  intros H; apply IH in H; lia.
Qed.

Lemma lookup_cons_new {B} (x0 : B) h : lookup (x0 :: h) (length h) = Some x0.
Proof. simpl. now rewrite Nat.eqb_refl. Qed.

Lemma lookup_cons_old {B} (x0 : B) h a b :
  lookup h a = Some b -> lookup (x0 :: h) a = Some b.
Proof.
  intros H. simpl. pose proof (lookup_lt h a _ H).
  destruct (Nat.eqb_spec a (length h)); [lia|auto].
Qed.

Lemma lookup_app_old {B} (l h : list B) a b :
  lookup h a = Some b -> lookup (l ++ h) a = Some b.
Proof.
  intros H. induction l as [|x0 l IH]; simpl; auto.
  now apply lookup_cons_old.
Qed.

Lemma update_cons_new {B} (x0 : B) h b : update (x0 :: h) (length h) b = b :: h.
Proof. simpl. now rewrite Nat.eqb_refl. Qed.

Lemma update_cons_old {B} (x0 : B) h a b b0 :
  lookup h a = Some b0 -> update (x0 :: h) a b = x0 :: update h a b.
Proof.
  intros H. simpl. pose proof (lookup_lt h a _ H).
  destruct (Nat.eqb_spec a (length h)); [lia|auto].
Qed.

Lemma update_length {B} (h : list B) a b : length (update h a b) = length h.
Proof.
  induction h as [|x0 h IH]; simpl; auto.
  destruct (a =? length h); simpl; auto.
Qed.

(** Writing at an address leaves every other address as it was. *)
Lemma lookup_update_other {B} (h : list B) a a' b :
  a <> a' -> lookup (update h a b) a' = lookup h a'.
Proof.
  intros Hne. induction h as [|x0 h IH]; simpl; auto.
  destruct (Nat.eqb_spec a (length h)) as [->|Ha]; simpl.
  - destruct (Nat.eqb_spec a' (length h)); [congruence|reflexivity].
  - rewrite update_length. now rewrite IH.
Qed.


Lemma ext_refl {B} (h : list B) : ext h h.
Proof. now exists []. Qed.

Lemma ext_cons {B} (h h' : list B) x0 : ext h h' -> ext h (x0 :: h').
Proof. intros [l ->]. now exists (x0 :: l). Qed.

Lemma ext_app {B} (h h' l : list B) : ext h h' -> ext h (l ++ h').
Proof. intros [l' ->]. exists (l ++ l'). now rewrite app_assoc. Qed.

Lemma ext_trans {B} (h1 h2 h3 : list B) : ext h1 h2 -> ext h2 h3 -> ext h1 h3.
Proof. intros [l ->] [l' ->]. exists (l' ++ l). now rewrite app_assoc. Qed.

Lemma ext_lookup {B} (h h' : list B) a b :
  ext h h' -> lookup h a = Some b -> lookup h' a = Some b.
Proof. intros [l ->]. apply lookup_app_old. Qed.

#[local] Hint Resolve ext_refl ext_cons ext_app : store.

Ltac norm :=
  cbn [fheap bheap self console clock ticks set_fheap set_bheap set_self
       mbase vbase rows cols tr vlen T_ newaxis_col negb fst snd].

Ltac solve_lookup :=
  norm;
  repeat first [ eassumption
               | apply lookup_cons_new
               | apply lookup_cons_old
               | apply lookup_app_old
               | (eapply ext_lookup; [eassumption|]) ].

(** ** Running the primitives *)

Lemma bind_run {A B} (m : M A) (k : A -> M B) w :
  bind m k w =
  match m w with (inr a, w') => k a w' | (inl e, w') => (inl e, w') end.
Proof. reflexivity. Qed.

Lemma snap_run w m b :
  lookup (fheap w) (mbase m) = Some b -> snap m w = (inr (view NaN m b), w).
Proof. intros H. unfold snap, bind, load_f. now rewrite H. Qed.

Lemma vsnap_run w v b :
  lookup (fheap w) (vbase v) = Some b -> vsnap v w = (inr b, w).
Proof. intros H. unfold vsnap, load_f. now rewrite H. Qed.

Lemma bsnap_run w m b :
  lookup (bheap w) (mbase m) = Some b ->
  bsnap m w = (inr (view false m b), w).
Proof. intros H. unfold bsnap, bind, load_b. now rewrite H. Qed.

Lemma view_fresh {T} (d : T) a (V : parr T) :
  view d (mk_mat a (pr V) (pc V) false) (pdata V) = V.
Proof. destruct V; reflexivity. Qed.

Lemma view_T_ {T} (d : T) b r c (buf : list T) :
  view d (T_ (mk_mat b r c false)) buf = transpose_v d (mk_parr r c buf).
Proof. reflexivity. Qed.

Lemma view_tr {T} (d : T) b r c (buf : list T) :
  view d (mk_mat b c r true) buf = transpose_v d (mk_parr r c buf).
Proof. reflexivity. Qed.

Lemma parr_eta {T} (V : parr T) : mk_parr (pr V) (pc V) (pdata V) = V.
Proof. now destruct V. Qed.

(** ** Running the numpy operations *)

Section Run.

Variable w : world.

Local Abbreviation push b := (set_fheap (b :: fheap w) w).
Local Abbreviation top V := (mk_mat (length (fheap w)) (pr V) (pc V) false).
Local Abbreviation vtop l := (mk_vec (length (fheap w)) (length l)).

Lemma np_dot_run a b ba bb :
  lookup (fheap w) (mbase a) = Some ba ->
  lookup (fheap w) (mbase b) = Some bb ->
  np_dot a b w =
  match dot_v (view NaN a ba) (view NaN b bb) with
  | inr V => (inr (top V), push (pdata V))
  | inl e => (inl e, w)
  end.
Proof.
  intros Ha Hb. unfold np_dot. rewrite bind_run, (snap_run _ _ _ Ha).
  rewrite bind_run, (snap_run _ _ _ Hb). reflexivity.
Qed.

Lemma np_binop_run op a b ba bb :
  lookup (fheap w) (mbase a) = Some ba ->
  lookup (fheap w) (mbase b) = Some bb ->
  np_binop op a b w =
  match broadcast2 op NaN NaN (view NaN a ba) (view NaN b bb) with
  | inr V => (inr (top V), push (pdata V))
  | inl e => (inl e, w)
  end.
Proof.
  intros Ha Hb. unfold np_binop. rewrite bind_run, (snap_run _ _ _ Ha).
  rewrite bind_run, (snap_run _ _ _ Hb). reflexivity.
Qed.

Lemma np_mul_mask_run a b ba bb :
  lookup (fheap w) (mbase a) = Some ba ->
  lookup (bheap w) (mbase b) = Some bb ->
  np_mul_mask a b w =
  match broadcast2 (fun x0 c => nmul x0 (of_bool c)) NaN false
          (view NaN a ba) (view false b bb) with
  | inr V => (inr (top V), push (pdata V))
  | inl e => (inl e, w)
  end.
Proof.
  intros Ha Hb. unfold np_mul_mask. rewrite bind_run, (snap_run _ _ _ Ha).
  rewrite bind_run, (bsnap_run _ _ _ Hb). reflexivity.
Qed.

Lemma np_map_run f a ba :
  lookup (fheap w) (mbase a) = Some ba ->
  np_map f a w =
  (inr (top (map_v f (view NaN a ba))),
   push (pdata (map_v f (view NaN a ba)))).
Proof.
  intros Ha. unfold np_map. rewrite bind_run, (snap_run _ _ _ Ha). reflexivity.
Qed.

Lemma np_vmap_run f v l :
  lookup (fheap w) (vbase v) = Some l ->
  np_vmap f v w = (inr (vtop (map f l)), push (map f l)).
Proof.
  intros Hv. unfold np_vmap. rewrite bind_run, (vsnap_run _ _ _ Hv). reflexivity.
Qed.

Lemma np_vbinop_run op a b la lb :
  lookup (fheap w) (vbase a) = Some la ->
  lookup (fheap w) (vbase b) = Some lb ->
  np_vbinop op a b w =
  if length la =? length lb
  then let l := map (fun p => op (fst p) (snd p)) (combine la lb) in
       (inr (vtop l), push l)
  else (inl BroadcastError, w).
Proof.
  intros Ha Hb. unfold np_vbinop. rewrite bind_run, (vsnap_run _ _ _ Ha).
  rewrite bind_run, (vsnap_run _ _ _ Hb).
  destruct (length la =? length lb); reflexivity.
Qed.

Lemma np_sum_axis1_keepdims_run a ba :
  lookup (fheap w) (mbase a) = Some ba ->
  np_sum_axis1_keepdims a w =
  (inr (top (sum_axis1_v (view NaN a ba))),
   push (pdata (sum_axis1_v (view NaN a ba)))).
Proof.
  intros Ha. unfold np_sum_axis1_keepdims.
  rewrite bind_run, (snap_run _ _ _ Ha). reflexivity.
Qed.

Lemma np_sum_axis0_run a ba :
  lookup (fheap w) (mbase a) = Some ba ->
  np_sum_axis0 a w =
  (inr (vtop (sum_axis0_v (view NaN a ba))),
   push (sum_axis0_v (view NaN a ba))).
Proof.
  intros Ha. unfold np_sum_axis0.
  rewrite bind_run, (snap_run _ _ _ Ha). reflexivity.
Qed.

Lemma np_sum_run a ba :
  lookup (fheap w) (mbase a) = Some ba ->
  np_sum a w = (inr (sum_v (view NaN a ba)), w).
Proof.
  intros Ha. unfold np_sum. rewrite bind_run, (snap_run _ _ _ Ha). reflexivity.
Qed.

Lemma np_reduce_axis0_run op a ba :
  lookup (fheap w) (mbase a) = Some ba ->
  np_reduce_axis0 op a w =
  match reduce_axis0_v op (view NaN a ba) with
  | inr l => (inr (vtop l), push l)
  | inl e => (inl e, w)
  end.
Proof.
  intros Ha. unfold np_reduce_axis0.
  rewrite bind_run, (snap_run _ _ _ Ha). reflexivity.
Qed.

Lemma pairwise_distances_run a ba :
  lookup (fheap w) (mbase a) = Some ba ->
  pairwise_distances a w =
  match pairwise_distances_v (view NaN a ba) with
  | inr V => (inr (top V), push (pdata V))
  | inl e => (inl e, w)
  end.
Proof.
  intros Ha. unfold pairwise_distances.
  rewrite bind_run, (snap_run _ _ _ Ha). reflexivity.
Qed.

Lemma logsumexp_run a ba :
  lookup (fheap w) (mbase a) = Some ba ->
  logsumexp a w =
  match logsumexp_v (view NaN a ba) with
  | inr l => (inr (vtop l), push l)
  | inl e => (inl e, w)
  end.
Proof.
  intros Ha. unfold logsumexp.
  rewrite bind_run, (snap_run _ _ _ Ha). reflexivity.
Qed.

Lemma fill_diagonal_with_run a ba vals :
  lookup (fheap w) (mbase a) = Some ba ->
  fill_diagonal_with a vals w =
  match fill_diagonal_v vals (view NaN a ba) with
  | inr V =>
      (inr tt, set_fheap (update (fheap w) (mbase a) (unview NaN a V)) w)
  | inl e => (inl e, w)
  end.
Proof.
  intros Ha. unfold fill_diagonal_with.
  rewrite bind_run, (snap_run _ _ _ Ha). reflexivity.
Qed.

Lemma fill_diagonal_run a ba v vals :
  lookup (fheap w) (mbase a) = Some ba ->
  lookup (fheap w) (vbase v) = Some vals ->
  fill_diagonal a v w =
  match fill_diagonal_v vals (view NaN a ba) with
  | inr V =>
      (inr tt, set_fheap (update (fheap w) (mbase a) (unview NaN a V)) w)
  | inl e => (inl e, w)
  end.
Proof.
  intros Ha Hv. unfold fill_diagonal.
  rewrite bind_run, (vsnap_run _ _ _ Hv). now apply fill_diagonal_with_run.
Qed.

End Run.

Lemma fill_diagonal_v_shape vals V V' :
  fill_diagonal_v vals V = inr V' -> pr V' = pr V /\ pc V' = pc V.
Proof.
  unfold fill_diagonal_v. destruct vals.
  - destruct (_ || _); [|discriminate]. intros [= <-]; auto.
  - intros [= <-]; auto.
Qed.


(** ** Running the evaluator *)

Lemma get_n_iter_run w it :
  n_iter_ (self w) = Some it -> get_n_iter_ w = (inr it, w).
Proof. intros H. unfold get_n_iter_, bind, get_self. now rewrite H. Qed.

Ltac step L :=
  cbv beta iota; rewrite bind_run; (erewrite L by solve_lookup);
  unfold set_fheap; norm; rewrite ?view_T_, ?view_tr, ?view_fresh, ?parr_eta.

Ltac last_step L :=
  cbv beta iota; (erewrite L by solve_lookup);
  unfold set_fheap; norm; rewrite ?view_T_, ?view_tr, ?view_fresh, ?parr_eta.

Ltac close_ext :=
  cbv beta iota; intros [= <- <-];
  match goal with
  | |- exists h, _ /\ (_, mk_world (_ :: ?H) _ _ _ _ _) = (inr _, _) =>
      exists H
  | |- exists h, _ /\ (_, mk_world ?H _ _ _ _ _) = (inl _, _) => exists H
  end;
  split; [ norm; solve [auto 20 with store] | reflexivity ].

Ltac start_run f :=
  match goal with
  | |- exists h, _ /\ ?m ?w = _ =>
      let r := fresh "r" in
      let w' := fresh "w'" in
      let E := fresh "E" in
      destruct (m w) as [r w'] eqn:E; revert E; unfold f
  end.

(** [softmax_distances] computes [softmax_distances_v], on top of the
    store it was given. *)
Lemma softmax_distances_run w Y b :
  lookup (fheap w) (mbase Y) = Some b ->
  exists h,
    ext (fheap w) h /\
    softmax_distances Y w =
    match softmax_distances_v (view NaN Y b) with
    | inr P =>
        (inr (mk_mat (length h) (pr P) (pc P) false),
         set_fheap (pdata P :: h) w)
    | inl e => (inl e, set_fheap h w)
    end.
Proof.
  destruct w as [fh bh s c cl tk]. norm.
  intros HY. start_run softmax_distances. unfold softmax_distances_v.
  step pairwise_distances_run.
  destruct (pairwise_distances_v _) as [e|D] eqn:HD; [close_ext|].
  step fill_diagonal_with_run.
  destruct (fill_diagonal_v _ _) as [e|D'] eqn:HD'; [close_ext|].
  rewrite update_cons_new. unfold unview; norm.
  destruct (fill_diagonal_v_shape _ _ _ HD') as [<- <-].
  step np_map_run. step np_map_run. step logsumexp_run.
  destruct (logsumexp_v _) as [e|lse] eqn:Hlse; [close_ext|].
  step np_binop_run. unfold view at 1; norm.
  destruct (broadcast2 _ _ _ _ _) as [e|arg] eqn:Harg; [close_ext|].
  last_step np_map_run.
  close_ext.
Qed.

Ltac solve_progress :=
  repeat (apply Forall_app; split);
  first [ assumption | repeat constructor ].

Ltac close_run :=
  cbv beta iota; intros [= <- <-];
  match goal with
  | |- exists h es t, _ /\ _ /\
         (_, mk_world (_ :: ?H) _ _ (_ ++ ?ES) _ ?T) = (inr _, _) =>
      exists H, ES, T
  | |- exists h es t, _ /\ _ /\
         (_, mk_world ?H _ _ (_ ++ ?ES) _ ?T) = (inl _, _) =>
      exists H, ES, T
  end;
  split; [ norm; solve [eauto 20 using ext_trans with store] | ];
  split; [ solve_progress | reflexivity ].

Ltac start_run3 f :=
  match goal with
  | |- exists h c t, _ /\ _ /\ ?m ?w = _ =>
      let r := fresh "r" in
      let w' := fresh "w'" in
      let E := fresh "E" in
      destruct (m w) as [r w'] eqn:E; revert E; unfold f
  end.

Ltac step_softmax :=
  cbv beta iota; rewrite bind_run;
  match goal with
  | |- context [softmax_distances ?Y ?W] =>
      let h := fresh "h" in
      let Hext := fresh "Hext" in
      let Hrun := fresh "Hrun" in
      destruct (softmax_distances_run W Y _ ltac:(solve_lookup))
        as (h & Hext & Hrun);
      rewrite Hrun; clear Hrun; cbn [fheap set_fheap] in Hext;
      unfold set_fheap; norm;
      rewrite ?view_T_, ?view_tr, ?view_fresh, ?parr_eta
  end.

Ltac split_pure :=
  match goal with
  | |- context [dot_v ?a ?b] => destruct (dot_v a b) eqn:?
  | |- context [softmax_distances_v ?a] =>
      destruct (softmax_distances_v a) eqn:?
  | |- context [broadcast2 ?f ?x ?y ?a ?b] =>
      destruct (broadcast2 f x y a b) eqn:?
  | |- context [fill_diagonal_v ?v ?a] =>
      destruct (fill_diagonal_v v a) eqn:?
  end; [close_run|].

Ltac numeric_part :=
  step np_dot_run; split_pure;
  step_softmax; split_pure;
  step np_mul_mask_run; split_pure;
  step np_sum_axis1_keepdims_run;
  step np_sum_run;
  step np_binop_run; split_pure;
  step np_binop_run; split_pure;
  step np_binop_run; split_pure;
  step np_sum_axis0_run;
  step np_vmap_run;
  step fill_diagonal_run; split_pure;
  erewrite 2 update_cons_old by solve_lookup;
  rewrite update_cons_new; unfold unview; norm;
  match goal with
  | H : fill_diagonal_v _ _ = inr _ |- _ =>
      destruct (fill_diagonal_v_shape _ _ _ H) as [<- <-]
  end;
  step np_dot_run; split_pure;
  step np_dot_run; split_pure;
  step np_map_run.

(** [_loss_grad_lbfgs] computes [loss_grad_v]: it returns that objective
    and a fresh array holding that gradient, adds buffers on top of the
    store, prints nothing but progress, and changes nothing of the object
    but the counter. *)
Lemma loss_grad_run w A X mask sign a bx bm it :
  lookup (fheap w) (vbase A) = Some a ->
  vlen A = length a ->
  lookup (fheap w) (mbase X) = Some bx ->
  lookup (bheap w) (mbase mask) = Some bm ->
  n_iter_ (self w) = Some it ->
  exists h es t,
    ext (fheap w) h /\
    Forall (fun e => is_progress e = true) es /\
    _loss_grad_lbfgs A X mask sign w =
    match loss_grad_v a (view NaN X bx) (view false mask bm) sign with
    | inr lg =>
        (inr (fst lg, mk_vec (length h) (length (snd lg))),
         mk_world (snd lg :: h) (bheap w)
                  (with_n_iter_ (it + 1) (self w))
                  (console w ++ es) (clock w) t)
    | inl e =>
        (inl e,
         mk_world h (bheap w) (self w) (console w ++ es) (clock w) t)
    end.
Proof.
  destruct w as [fh bh s c cl tk]. norm.
  intros HA Hlen HX HM Hit. start_run3 _loss_grad_lbfgs. unfold loss_grad_v.
  step get_n_iter_run.
  rewrite bind_run. unfold get_self at 1. norm. cbv beta iota.
  assert (Hpre : exists es1,
     Forall (fun e => is_progress e = true) es1 /\
     forall k : unit -> M (num * vec),
       bind (if (it =? 0)%Z && verbose s
             then print PrintBanner ;;; print PrintHeader else ret tt) k
            (mk_world fh bh s c cl tk) =
       k tt (mk_world fh bh s (c ++ es1) cl tk)).
  { destruct ((it =? 0)%Z && verbose s).
    - exists [PrintBanner; PrintHeader]. split; [repeat constructor|].
      intros k. unfold bind, print. norm. now rewrite <- app_assoc.
    - exists []. split; [constructor|]. intros k.
      unfold bind, ret. now rewrite app_nil_r. }
  destruct Hpre as (es1 & Hes1 & Hpre). rewrite Hpre. clear Hpre.
  rewrite bind_run. unfold time_time at 1. norm. cbv beta iota.
  rewrite bind_run. unfold reshape. rewrite Hlen.
  replace (cols X) with (pc (view NaN X bx))
    by (unfold view; now destruct (tr X)).
  destruct ((pc (view NaN X bx) =? 0)
            || negb (length a mod pc (view NaN X bx) =? 0)) eqn:Hd.
  { unfold raise. close_run. }
  unfold ret at 1. cbv beta iota.
  numeric_part.
  cbv beta iota. rewrite bind_run.
  match goal with
  | |- context [(if verbose s then ?m else _) ?W] =>
      assert (Hpost : exists es2 t'',
                 Forall (fun e => is_progress e = true) es2 /\
                 (if verbose s then m else ret tt) W =
                 (inr tt, mk_world (fheap W) bh s (c ++ es1 ++ es2) cl t''))
  end.
  { destruct (verbose s).
    - unfold time_time, bind at 1. norm.
      rewrite bind_run. erewrite get_n_iter_run by solve_lookup.
      unfold bind, print. norm. do 2 eexists. split; [|
        rewrite <- !app_assoc; reflexivity ]. repeat constructor.
    - exists [], (S tk). split; [constructor|].
      unfold ret. now rewrite app_nil_r. }
  destruct Hpost as (es2 & t'' & Hes2 & Hpost). rewrite Hpost. clear Hpost.
  norm.
  step get_n_iter_run.
  rewrite bind_run.
  unfold set_n_iter_, bind at 1, get_self, put_self, set_self. norm.
  cbv beta iota. rewrite bind_run. unfold ravel, ret at 1. norm.
  cbv beta iota.
  rewrite bind_run. erewrite np_vmap_run by solve_lookup.
  unfold ret, set_fheap. norm.
  close_run.
Qed.

(** ** Sums *)

Lemma nsum_S n f : nsum (S n) f = nadd (nsum n f) (f n).
Proof.
  unfold nsum, nsum_list. rewrite seq_S, map_app, fold_left_app. reflexivity.
Qed.

Lemma nsum_ext n f g : (forall i, i < n -> f i = g i) -> nsum n f = nsum n g.
Proof.
  intros H. unfold nsum. f_equal. apply map_ext_in.
  intros i Hi. apply in_seq in Hi. apply H. lia.
Qed.

Lemma Rsum_0 f : Rsum 0 f = 0%R.
Proof. reflexivity. Qed.

Lemma Rsum_S n f : Rsum (S n) f = (Rsum n f + f n)%R.
Proof.
  unfold Rsum, Rsum_list. rewrite seq_S, map_app, fold_left_app. reflexivity.
Qed.

Lemma Rsum_ext n f g : (forall i, i < n -> f i = g i) -> Rsum n f = Rsum n g.
Proof.
  intros H. unfold Rsum. f_equal. apply map_ext_in.
  intros i Hi. apply in_seq in Hi. apply H. lia.
Qed.

Lemma nsum_Fin n f : nsum n (fun i => Fin (f i)) = Fin (Rsum n f).
Proof.
  induction n as [|n IH]; [reflexivity|].
  now rewrite nsum_S, Rsum_S, IH.
Qed.



Lemma Rsum_scal_r n c f : Rsum n (fun i => f i * c)%R = (Rsum n f * c)%R.
Proof.
  induction n as [|n IH]; [rewrite !Rsum_0; lra|]. rewrite !Rsum_S, IH. lra.
Qed.

Lemma Rsum_le n f g :
  (forall i, i < n -> (f i <= g i)%R) -> (Rsum n f <= Rsum n g)%R.
Proof.
  induction n as [|n IH]; intros H; [rewrite !Rsum_0; lra|].
  rewrite !Rsum_S. specialize (H n (Nat.lt_succ_diag_r n)) as Hn.
  assert (Rsum n f <= Rsum n g)%R by (apply IH; intros; apply H; lia). lra.
Qed.

Lemma Rsum_const n c : Rsum n (fun _ => c) = (INR n * c)%R.
Proof.
  induction n as [|n IH]; [rewrite Rsum_0; simpl; lra|].
  rewrite Rsum_S, IH, S_INR. lra.
Qed.

Lemma Rsum_nonneg n f :
  (forall i, i < n -> (0 <= f i)%R) -> (0 <= Rsum n f)%R.
Proof.
  intros H. replace 0%R with (Rsum n (fun _ => 0%R)).
  - now apply Rsum_le.
  - rewrite Rsum_const. lra.
Qed.

(** A sum of non-negative terms one of which is positive. *)
Lemma Rsum_pos n f j :
  (forall i, i < n -> (0 <= f i)%R) -> j < n -> (0 < f j)%R ->
  (0 < Rsum n f)%R.
Proof.
  induction n as [|n IH]; intros H Hj Hf; [lia|].
  rewrite Rsum_S. destruct (Nat.eq_dec j n) as [->|Hne].
  - assert (0 <= Rsum n f)%R by (apply Rsum_nonneg; intros; apply H; lia). lra.
  - assert (0 < Rsum n f)%R by (apply IH; [intros; apply H; lia|lia|auto]).
    specialize (H n (Nat.lt_succ_diag_r n)). lra.
Qed.

(** ** Tabulated arrays *)

Lemma tab2_S {T} r c (f : nat -> nat -> T) :
  tab2 (S r) c f = tab2 r c f ++ map (f r) (seq 0 c).
Proof.
  unfold tab2. rewrite seq_S, flat_map_app. simpl. now rewrite app_nil_r.
Qed.

Lemma length_tab2 {T} r c (f : nat -> nat -> T) : length (tab2 r c f) = r * c.
Proof.
  induction r as [|r IH]; [reflexivity|].
  rewrite tab2_S, length_app, IH, length_map, length_seq. lia.
Qed.

Lemma nth_map_seq {T} (g : nat -> T) c j d :
  j < c -> nth j (map g (seq 0 c)) d = g j.
Proof.
  intros Hj. rewrite (nth_indep _ d (g 0)) by (now rewrite length_map, length_seq).
  now rewrite map_nth, seq_nth.
Qed.

Lemma nth_tab2 {T} r c (f : nat -> nat -> T) i j d :
  i < r -> j < c -> nth (i * c + j) (tab2 r c f) d = f i j.
Proof.
  induction r as [|r IH]; intros Hi Hj; [lia|].
  rewrite tab2_S. destruct (Nat.eq_dec i r) as [->|Hne].
  - rewrite app_nth2; rewrite length_tab2; [|lia].
    replace (r * c + j - r * c) with j by lia. now apply nth_map_seq.
  - rewrite app_nth1 by (rewrite length_tab2; nia). apply IH; lia.
Qed.

Lemma tab2_ext {T} r c (f g : nat -> nat -> T) :
  (forall i j, i < r -> j < c -> f i j = g i j) -> tab2 r c f = tab2 r c g.
Proof.
  induction r as [|r IH]; intros H; [reflexivity|].
  rewrite !tab2_S. f_equal.
  - apply IH. intros; apply H; lia.
  - apply map_ext_in. intros j Hj. apply in_seq in Hj. apply H; lia.
Qed.

Lemma map_tab2 {T U} (h : T -> U) r c (f : nat -> nat -> T) :
  map h (tab2 r c f) = tab2 r c (fun i j => h (f i j)).
Proof.
  induction r as [|r IH]; [reflexivity|].
  rewrite !tab2_S, map_app, IH, map_map. reflexivity.
Qed.

Lemma tab2_col {T} r (f : nat -> nat -> T) :
  tab2 r 1 f = map (fun i => f i 0) (seq 0 r).
Proof.
  induction r as [|r IH]; [reflexivity|].
  rewrite tab2_S, IH. change (seq 0 1) with [0].
  rewrite seq_S, map_app. reflexivity.
Qed.

Lemma forallb_tab2 {T} (p : T -> bool) r c f :
  (forall i j, i < r -> j < c -> p (f i j) = true) ->
  forallb p (tab2 r c f) = true.
Proof.
  induction r as [|r IH]; intros H; [reflexivity|].
  rewrite tab2_S, forallb_app, IH by (intros; apply H; lia). simpl.
  apply forallb_forall. intros y Hy. apply in_map_iff in Hy.
  destruct Hy as (j & <- & Hj). apply in_seq in Hj. apply H; lia.
Qed.

Lemma get_tabulate {T} (d : T) r c f i j :
  i < r -> j < c -> get d (tabulate r c f) i j = f i j.
Proof. intros. unfold get, tabulate. simpl. now apply nth_tab2. Qed.

Lemma tabulate_ext {T} r c (f g : nat -> nat -> T) :
  (forall i j, i < r -> j < c -> f i j = g i j) ->
  tabulate r c f = tabulate r c g.
Proof. intros H. unfold tabulate. f_equal. now apply tab2_ext. Qed.

(** A well-formed array is the tabulation of its entries. *)
Lemma tab2_nth {T} (d : T) r c (l : list T) :
  length l = r * c -> tab2 r c (fun i j => nth (i * c + j) l d) = l.
Proof.
  intros Hl. apply (nth_ext _ _ d d).
  - now rewrite length_tab2.
  - intros m Hm. rewrite length_tab2 in Hm.
    assert (Hc : c <> 0) by (intros ->; lia).
    rewrite (Nat.div_mod_eq m c) at 1. rewrite (Nat.mul_comm c).
    rewrite nth_tab2.
    + f_equal. rewrite (Nat.mul_comm _ c). symmetry. apply Nat.div_mod_eq.
    + apply Nat.Div0.div_lt_upper_bound. lia.
    + now apply Nat.mod_upper_bound.
Qed.

Lemma isfinite_Fin x0 : isfinite x0 = true -> x0 = Fin (toR x0).
Proof. destruct x0; simpl; congruence. Qed.

Lemma fin_tab2 r c (l : list num) :
  length l = r * c -> forallb isfinite l = true ->
  l = tab2 r c (fun i j => Fin (Rflat c l i j)).
Proof.
  intros Hl Hf. rewrite <- (tab2_nth NaN r c l Hl) at 1.
  apply tab2_ext. intros i j Hi Hj. unfold Rflat.
  apply isfinite_Fin. rewrite forallb_forall in Hf. apply Hf.
  apply nth_In. nia.
Qed.

Lemma fin_mat_of (V : parr num) :
  length (pdata V) = pr V * pc V -> forallb isfinite (pdata V) = true ->
  V = fin_mat (pr V) (pc V) (Rmat V).
Proof.
  intros Hl Hf. destruct V as [r c l]. simpl in *.
  unfold fin_mat, tabulate. f_equal. now apply fin_tab2.
Qed.

Lemma fin_mat_ext r c f g :
  (forall i j, i < r -> j < c -> f i j = g i j) ->
  fin_mat r c f = fin_mat r c g.
Proof. intros H. apply tabulate_ext. intros. now rewrite H. Qed.

Lemma fget_fin_mat r c f i j :
  i < r -> j < c -> fget (fin_mat r c f) i j = Fin (f i j).
Proof. intros. unfold fget, fin_mat. now rewrite get_tabulate. Qed.

(** ** The numpy operations on finite matrices *)

Ltac tab_ext :=
  apply tabulate_ext; intros ?i ?j ?Hi ?Hj; unfold fget, fin_mat;
  rewrite ?get_tabulate by lia.

Lemma transpose_tab {T} (d : T) r c f :
  transpose_v d (tabulate r c f) = tabulate c r (fun i j => f j i).
Proof. unfold transpose_v. simpl. now tab_ext. Qed.

Lemma transpose_fin r c F :
  transpose_v NaN (fin_mat r c F) = fin_mat c r (fun i j => F j i).
Proof. apply transpose_tab. Qed.

Lemma dot_fin r c q F G :
  dot_v (fin_mat r c F) (fin_mat c q G) = inr (fin_mat r q (Rmatmul c F G)).
Proof.
  unfold dot_v. simpl. rewrite Nat.eqb_refl. f_equal. tab_ext.
  unfold Rmatmul. rewrite <- nsum_Fin. apply nsum_ext. intros l Hl.
  unfold fget, fin_mat. now rewrite !get_tabulate by lia.
Qed.

Lemma dot_shape_error a b : pc a <> pr b -> dot_v a b = inl DotError.
Proof. intros H. unfold dot_v. now apply Nat.eqb_neq in H as ->. Qed.

Lemma bidx_same n i : i < n -> bidx n i = i.
Proof. intros H. unfold bidx. destruct (Nat.eqb_spec n 1); lia. Qed.

Lemma bdim_lt r r' R i :
  bdim r r' = Some R -> i < R -> bidx r i < r /\ bidx r' i < r'.
Proof.
  unfold bdim, bidx. intros H Hi.
  destruct (Nat.eqb_spec r r'), (Nat.eqb_spec r 1), (Nat.eqb_spec r' 1);
    inversion H; subst; lia.
Qed.

Lemma bdim_refl n : bdim n n = Some n.
Proof. unfold bdim. now rewrite Nat.eqb_refl. Qed.

Lemma bdim_1_r n : bdim n 1 = Some n.
Proof.
  unfold bdim. destruct (Nat.eqb_spec n 1) as [->|]; [reflexivity|].
  reflexivity.
Qed.

Lemma broadcast2_tab {A B C} (f : A -> B -> C) da db r c F (b : parr B) R C' :
  bdim r (pr b) = Some R -> bdim c (pc b) = Some C' ->
  broadcast2 f da db (tabulate r c F) b =
  inr (tabulate R C'
         (fun i j => f (F (bidx r i) (bidx c j))
                       (get db b (bidx (pr b) i) (bidx (pc b) j)))).
Proof.
  intros Hr Hc. unfold broadcast2. simpl. rewrite Hr, Hc. f_equal.
  apply tabulate_ext. intros i j Hi Hj.
  destruct (bdim_lt _ _ _ i Hr Hi), (bdim_lt _ _ _ j Hc Hj).
  now rewrite get_tabulate.
Qed.

(** Two matrices of one shape. *)
Lemma binop_fin op rop n m F G :
  (forall u v, op (Fin u) (Fin v) = Fin (rop u v)) ->
  broadcast2 op NaN NaN (fin_mat n m F) (fin_mat n m G) =
  inr (fin_mat n m (fun i j => rop (F i j) (G i j))).
Proof.
  intros Hop. unfold fin_mat at 1.
  erewrite broadcast2_tab by (simpl; apply bdim_refl). f_equal.
  simpl. tab_ext. rewrite !bidx_same by lia.
  now rewrite get_tabulate, Hop by lia.
Qed.

(** A matrix and a column. *)
Lemma binop_col_fin op rop n m F G :
  (forall u v, op (Fin u) (Fin v) = Fin (rop u v)) ->
  broadcast2 op NaN NaN (fin_mat n m F) (fin_mat n 1 G) =
  inr (fin_mat n m (fun i j => rop (F i j) (G i 0))).
Proof.
  intros Hop. unfold fin_mat at 1.
  erewrite broadcast2_tab by (simpl; first [apply bdim_refl | apply bdim_1_r]).
  f_equal. simpl. tab_ext. rewrite !bidx_same by lia.
  change (bidx 1 j) with 0. now rewrite get_tabulate, Hop by lia.
Qed.

Lemma sum_axis1_fin r c F :
  sum_axis1_v (fin_mat r c F) = fin_mat r 1 (fun i _ => Rsum c (F i)).
Proof.
  unfold sum_axis1_v. simpl. tab_ext. rewrite <- nsum_Fin.
  apply nsum_ext. intros l Hl. unfold fget, fin_mat.
  now rewrite get_tabulate by lia.
Qed.

Lemma sum_col_fin r F :
  sum_v (fin_mat r 1 F) = Fin (Rsum r (fun i => F i 0)).
Proof.
  unfold sum_v, fin_mat, tabulate. simpl. rewrite tab2_col.
  apply (nsum_Fin r (fun i => F i 0)).
Qed.

Lemma sum_axis0_fin r c F :
  sum_axis0_v (fin_mat r c F) =
  map (fun j => Fin (Rsum r (fun i => F i j))) (seq 0 c).
Proof.
  unfold sum_axis0_v. simpl. apply map_ext_in. intros j Hj.
  apply in_seq in Hj. rewrite <- nsum_Fin. apply nsum_ext. intros i Hi.
  unfold fget, fin_mat. now rewrite get_tabulate by lia.
Qed.

(** Overwriting the diagonal of an n x n matrix by n values. *)
Lemma fill_diagonal_fin n F g :
  1 <= n ->
  fill_diagonal_v (map (fun j => Fin (g j)) (seq 0 n)) (fin_mat n n F) =
  inr (fin_mat n n (fun i j => if i =? j then g i else F i j)).
Proof.
  intros Hn. unfold fill_diagonal_v.
  destruct (map _ (seq 0 n)) as [|v0 vs] eqn:Hv.
  { destruct n; [lia|discriminate]. }
  rewrite <- Hv. f_equal. simpl. tab_ext.
  rewrite length_map, length_seq, Nat.mod_small by lia.
  destruct (i =? j); [|reflexivity].
  now rewrite nth_map_seq.
Qed.

Lemma map_fin_mat f rf r c F :
  (forall u, f (Fin u) = Fin (rf u)) ->
  map_v f (fin_mat r c F) = fin_mat r c (fun i j => rf (F i j)).
Proof.
  intros Hf. unfold map_v, fin_mat, tabulate. simpl. f_equal.
  rewrite map_tab2. apply tab2_ext. intros. apply Hf.
Qed.

Lemma pairwise_fin n k Y :
  1 <= n -> 1 <= k ->
  pairwise_distances_v (fin_mat n k Y) =
  inr (fin_mat n n (fun i j => Rsum k (fun l => (Y i l - Y j l) ^ 2)%R)).
Proof.
  intros Hn Hk. unfold pairwise_distances_v. simpl pr. simpl pc.
  destruct (Nat.leb_spec 1 n); [|lia]. destruct (Nat.leb_spec 1 k); [|lia].
  simpl pdata. rewrite forallb_tab2 by reflexivity. simpl. f_equal.
  tab_ext. rewrite <- nsum_Fin. apply nsum_ext. intros l Hl.
  unfold fget, fin_mat. rewrite !get_tabulate by lia. simpl.
  f_equal. ring.
Qed.

(** ** The softmax *)


Lemma nmax_low_fin a x0 :
  isfinite a = true -> x0 = NInf \/ isfinite x0 = true ->
  isfinite (nmax a x0) = true.
Proof. destruct a; try discriminate. intros _ [->|H]; [reflexivity|]. now destruct x0. Qed.

Lemma fold_nmax_fin l acc :
  Forall (fun x0 => x0 = NInf \/ isfinite x0 = true) l ->
  isfinite acc = true -> isfinite (fold_left nmax l acc) = true.
Proof.
  intros Hl. revert acc. induction Hl as [|x0 l Hx _ IH]; intros acc Ha; simpl; auto.
  apply IH. now apply nmax_low_fin.
Qed.

Lemma fold_nmax_some_fin l acc :
  Forall (fun x0 => x0 = NInf \/ isfinite x0 = true) l ->
  acc = NInf \/ isfinite acc = true ->
  Exists (fun x0 => isfinite x0 = true) l ->
  isfinite (fold_left nmax l acc) = true.
Proof.
  intros Hl. revert acc. induction Hl as [|x0 l Hx Hl IH]; intros acc Ha He.
  - inversion He.
  - simpl. destruct Ha as [->|Ha].
    + destruct Hx as [->|Hx].
      * apply IH; [now left|]. inversion He; subst; [discriminate|assumption].
      * apply fold_nmax_fin; auto. now destruct x0.
    + apply fold_nmax_fin; auto. now apply nmax_low_fin.
Qed.

Lemma reduce_nmax_fin l :
  Forall (fun x0 => x0 = NInf \/ isfinite x0 = true) l ->
  Exists (fun x0 => isfinite x0 = true) l ->
  isfinite (reduce nmax l) = true.
Proof.
  intros Hl He. destruct l as [|x0 l]; [inversion He|].
  unfold reduce. simpl. inversion Hl; subst. inversion He; subst.
  - now apply fold_nmax_fin.
  - now apply fold_nmax_some_fin.
Qed.

Lemma Rsign_pos r : (0 < r)%R -> Rsign r = Gt.
Proof. intros H. unfold Rsign. destruct (Rlt_dec 0 r); [reflexivity|contradiction]. Qed.

Lemma Rsign_zero : Rsign 0 = Eq.
Proof.
  unfold Rsign. destruct (Rlt_dec 0 0); [lra|]. reflexivity.
Qed.

(** The sum that normalises row [i]: positive as soon as there is a second
    sample. *)
Lemma offdiag_sum_pos n i (v : nat -> R) :
  2 <= n -> i < n ->
  (0 < Rsum n (fun j => if (i =? j)%nat then 0%R else exp (v j)))%R.
Proof.
  intros Hn Hi.
  apply Rsum_pos with (j := if i =? 0 then 1 else 0).
  - intros j _. destruct (i =? j); [lra|]. left. apply exp_pos.
  - destruct (i =? 0); lia.
  - destruct (Nat.eqb_spec i 0) as [->|Hne]; simpl.
    + apply exp_pos.
    + destruct (Nat.eqb_spec i 0); [lia|]. apply exp_pos.
Qed.

Lemma logsumexp_row_offdiag n i (v : nat -> R) :
  2 <= n -> i < n ->
  logsumexp_row (map (fun j => if i =? j then NInf else Fin (v j)) (seq 0 n)) =
  Fin (ln (Rsum n (fun j => if (i =? j)%nat then 0%R else exp (v j)))).
Proof.
  intros Hn Hi. unfold logsumexp_row.
  set (l := map _ (seq 0 n)).
  assert (Hm : isfinite (reduce nmax l) = true).
  { apply reduce_nmax_fin.
    - apply Forall_forall. intros y Hy. apply in_map_iff in Hy.
      destruct Hy as (j & <- & _). destruct (i =? j); auto.
    - apply Exists_exists. exists (Fin (v (if i =? 0 then 1 else 0))). split; [|reflexivity].
      apply in_map_iff. exists (if i =? 0 then 1 else 0). split.
      + destruct (Nat.eqb_spec i 0) as [->|]; simpl; [reflexivity|].
        destruct (Nat.eqb_spec i 0); [lia|reflexivity].
      + apply in_seq. destruct (i =? 0); lia. }
  rewrite Hm. destruct (reduce nmax l) as [m| | |]; try discriminate.
  unfold l. rewrite map_map.
  assert (Hs : nsum_list (map (fun j => nexp (nsub (if i =? j then NInf else Fin (v j)) (Fin m))) (seq 0 n)) =
               Fin (Rsum n (fun j => if (i =? j)%nat then 0%R else exp (v j - m)%R))%R).
  { rewrite <- nsum_Fin. unfold nsum. f_equal. apply map_ext. intros j.
    destruct (i =? j); reflexivity. }
  rewrite Hs. clear Hs.
  assert (Hpos := offdiag_sum_pos n i (fun j => v j - m)%R Hn Hi).
  simpl. rewrite (Rsign_pos _ Hpos). simpl. f_equal.
  cbv beta in Hpos.
  set (S := Rsum n (fun j => if (i =? j)%nat then 0%R else exp (v j - m)%R)) in *.
  replace (ln S + m)%R with (ln S + ln (exp m))%R by (now rewrite ln_exp).
  rewrite <- ln_mult; [|assumption|apply exp_pos]. unfold S.
  f_equal. rewrite <- Rsum_scal_r. apply Rsum_ext. intros j _.
  destruct (i =? j); [lra|]. rewrite <- exp_plus. f_equal. lra.
Qed.

Lemma softmax_fin n k Y :
  2 <= n -> 1 <= k ->
  softmax_distances_v (fin_mat n k Y) =
  inr (fin_mat n n (softmax_P n (sq_dist k Y))).
Proof.
  intros Hn Hk. unfold softmax_distances_v.
  rewrite pairwise_fin by lia. fold (sq_dist k Y).
  set (D := sq_dist k Y).
  assert (HD' : fill_diagonal_v [PInf] (fin_mat n n D) =
                inr (tabulate n n (fun i j => if i =? j then PInf else Fin (D i j)))).
  { unfold fill_diagonal_v. f_equal.
    change (pr (fin_mat n n D)) with n. change (pc (fin_mat n n D)) with n.
    tab_ext. change (length [PInf]) with 1. rewrite Nat.mod_1_r. reflexivity. }
  rewrite HD'. clear HD'.
  assert (HN : map_v nneg (tabulate n n (fun i j => if i =? j then PInf else Fin (D i j))) =
               tabulate n n (fun i j => if i =? j then NInf else Fin (- D i j))).
  { unfold map_v, tabulate. simpl. f_equal. rewrite map_tab2.
    apply tab2_ext. intros i j _ _. now destruct (i =? j). }
  rewrite HN. clear HN.
  set (N := tabulate n n _).
  assert (Hlse : logsumexp_v N =
                 inr (map (fun i => Fin (ln (softmax_Z n D i))) (seq 0 n))).
  { unfold logsumexp_v. simpl. destruct (Nat.eqb_spec n 0); [lia|]. f_equal.
    apply map_ext_in. intros i Hi. apply in_seq in Hi.
    unfold softmax_Z. rewrite <- logsumexp_row_offdiag by lia. f_equal.
    unfold row_v. simpl. apply map_ext_in. intros j Hj. apply in_seq in Hj.
    unfold N. now rewrite get_tabulate by lia. }
  rewrite Hlse. clear Hlse. rewrite length_map, length_seq.
  unfold N. erewrite broadcast2_tab by (simpl; first [apply bdim_refl|apply bdim_1_r]).
  f_equal. unfold map_v, fin_mat, tabulate. simpl. f_equal.
  rewrite map_tab2. apply tab2_ext. intros i j Hi Hj.
  rewrite !bidx_same by lia. change (bidx 1 j) with 0. unfold get. simpl.
  rewrite Nat.mul_1_r, Nat.add_0_r, nth_map_seq by lia.
  unfold softmax_P. destruct (i =? j); [reflexivity|]. simpl. f_equal.
  assert (Hpos : (0 < softmax_Z n D i)%R).
  { unfold softmax_Z. apply (offdiag_sum_pos n i (fun l => - D i l)%R); lia. }
  rewrite exp_plus, (exp_Ropp (ln _)), exp_ln by assumption. reflexivity.
Qed.

(** With a single sample there is no other column to normalise by: the
    row of negated distances is [-inf] alone, its log-sum-exp is [-inf], and
    the probability is [exp (-inf - -inf)], a NaN.  Hence the two samples
    that a valid call requires. *)
Lemma single_sample_nan k Y :
  1 <= k ->
  softmax_distances_v (fin_mat 1 k Y) = inr (tabulate 1 1 (fun _ _ => NaN)).
Proof.
  intros Hk. unfold softmax_distances_v. rewrite pairwise_fin by lia.
  unfold fill_diagonal_v, logsumexp_v, logsumexp_row, reduce, broadcast2,
    map_v, row_v, get, fget, fin_mat, tabulate, tab2, nsum_list.
  simpl. rewrite Rplus_0_l. unfold nlog. rewrite Rsign_zero. reflexivity.
Qed.

(** ** The evaluator on valid inputs *)

Lemma nmul_mask_fin p b :
  nmul (Fin p) (of_bool b) = Fin (p * (if b then 1 else 0)).
Proof. now destruct b. Qed.

Lemma mul_mask_fin n P VM M :
  bdim n (pr VM) = Some n -> bdim n (pc VM) = Some n ->
  (forall i j, i < n -> j < n ->
     bget VM (bidx (pr VM) i) (bidx (pc VM) j) = M i j) ->
  broadcast2 (fun x0 b => nmul x0 (of_bool b)) NaN false (fin_mat n n P) VM =
  inr (fin_mat n n (fun i j => P i j * (if M i j then 1 else 0))%R).
Proof.
  intros Hr Hc HM. unfold fin_mat at 1.
  erewrite broadcast2_tab by eassumption. f_equal.
  tab_ext. rewrite !bidx_same by lia. fold bget. rewrite HM by lia.
  apply nmul_mask_fin.
Qed.

Lemma loss_grad_v_fin n d k X L M VM s :
  2 <= n -> 1 <= d -> 1 <= k ->
  bdim n (pr VM) = Some n -> bdim n (pc VM) = Some n ->
  (forall i j, i < n -> j < n ->
     bget VM (bidx (pr VM) i) (bidx (pc VM) j) = M i j) ->
  loss_grad_v (tab2 k d (fun i j => Fin (L i j))) (fin_mat n d X) VM (Fin s) =
  inr (Fin (s * spec_loss n d k X L M),
       tab2 k d (fun a b => Fin (s * spec_gradient n d k X L M a b))).
Proof.
  intros Hn Hd Hk Hr Hc HM. unfold loss_grad_v.
  change (pc (fin_mat n d X)) with d. rewrite length_tab2.
  rewrite Nat.Div0.mod_mul, Nat.div_mul by lia.
  destruct (Nat.eqb_spec d 0); [lia|]. simpl orb. cbv iota.
  change (mk_parr k d (tab2 k d (fun i j => Fin (L i j)))) with (fin_mat k d L).
  rewrite transpose_fin, dot_fin.
  change (Rmatmul d X (fun i j => L j i)) with (spec_Y d X L).
  rewrite softmax_fin by lia.
  change (softmax_P n (sq_dist k (spec_Y d X L))) with (spec_P n d k X L).
  rewrite (mul_mask_fin n _ VM M) by assumption.
  change (fun i j => spec_P n d k X L i j * (if M i j then 1 else 0))%R
    with (spec_PM n d k X L M).
  rewrite sum_axis1_fin.
  rewrite (binop_col_fin nmul Rmult) by reflexivity.
  rewrite (binop_fin nsub Rminus) by reflexivity.
  rewrite transpose_fin.
  rewrite (binop_fin nadd Rplus) by reflexivity.
  rewrite sum_axis0_fin, map_map.
  rewrite (fill_diagonal_fin n _ (fun j => - Rsum n (fun i => spec_W n d k X L M i j))%R) by lia.
  rewrite transpose_fin, dot_fin, dot_fin.
  rewrite sum_col_fin.
  f_equal. f_equal.
  unfold fin_mat, tabulate. simpl pdata. rewrite map_map, map_tab2.
  reflexivity. 
Qed.

(** ** Valid calls *)

Lemma view_shape {T} (d : T) m b :
  pr (view d m b) = rows m /\ pc (view d m b) = cols m.
Proof. unfold view. now destruct (tr m). Qed.

Lemma view_fin m b :
  length b = rows m * cols m -> forallb isfinite b = true ->
  view NaN m b = fin_mat (rows m) (cols m) (Rmat (view NaN m b)).
Proof.
  intros Hl Hf. destruct (view_shape NaN m b) as [Hr Hc].
  rewrite <- Hr at 1. rewrite <- Hc at 1. apply fin_mat_of.
  - rewrite Hr, Hc. unfold view. destruct (tr m); simpl; auto.
    apply length_tab2.
  - unfold view. destruct (tr m); simpl; auto.
    apply forallb_tab2. intros i j Hi Hj.
    rewrite forallb_forall in Hf. apply Hf. apply nth_In. nia.
Qed.

Lemma bdim_n n r : 2 <= n -> (bdim n r = Some n <-> r = n \/ r = 1).
Proof.
  intros Hn. unfold bdim.
  destruct (Nat.eqb_spec n r), (Nat.eqb_spec n 1), (Nat.eqb_spec r 1);
    split; intros H; try lia; try congruence; auto.
Qed.

Lemma bdim_n_none n r : 2 <= n -> r <> n -> r <> 1 -> bdim n r = None.
Proof.
  intros Hn H1 H2. unfold bdim.
  destruct (Nat.eqb_spec n r), (Nat.eqb_spec n 1), (Nat.eqb_spec r 1);
    try lia; reflexivity.
Qed.

(** The value of a valid call whose mask can be broadcast to n x n. *)
Lemma loss_grad_v_valid w A X mask n d k a bx bm s M :
  valid_data w A X n d k a bx ->
  bdim n (rows mask) = Some n -> bdim n (cols mask) = Some n ->
  (forall i j, i < n -> j < n ->
     bget (view false mask bm) (bidx (rows mask) i) (bidx (cols mask) j)
     = M i j) ->
  loss_grad_v a (view NaN X bx) (view false mask bm) (Fin s) =
  inr (Fin (s * spec_loss n d k (Rmat (view NaN X bx)) (Rflat d a) M),
       tab2 k d (fun i j =>
         Fin (s * spec_gradient n d k (Rmat (view NaN X bx)) (Rflat d a) M
                    i j))).
Proof.
  intros [Hn Hd Hk HA Hvl Hal Haf HX Hr Hc Hxl Hxf] Hbr Hbc HM.
  destruct (view_shape false mask bm) as [Hmr Hmc].
  pose proof (loss_grad_v_fin n d k (Rmat (view NaN X bx)) (Rflat d a) M
                (view false mask bm) s Hn Hd Hk) as Hv.
  rewrite Hmr, Hmc in Hv. specialize (Hv Hbr Hbc HM).
  rewrite <- (fin_tab2 k d a Hal Haf) in Hv.
  subst n d. rewrite <- (view_fin X bx Hxl Hxf) in Hv. exact Hv.
Qed.

Lemma loss_grad_ok w A X mask n d k a bx bm s M it :
  valid_data w A X n d k a bx ->
  lookup (bheap w) (mbase mask) = Some bm ->
  bdim n (rows mask) = Some n -> bdim n (cols mask) = Some n ->
  (forall i j, i < n -> j < n ->
     bget (view false mask bm) (bidx (rows mask) i) (bidx (cols mask) j)
     = M i j) ->
  n_iter_ (self w) = Some it ->
  exists h es t,
    ext (fheap w) h /\
    Forall (fun e => is_progress e = true) es /\
    _loss_grad_lbfgs A X mask (Fin s) w =
    (inr (Fin (s * spec_loss n d k (Rmat (view NaN X bx)) (Rflat d a) M),
          mk_vec (length h) (k * d)),
     mk_world
       (tab2 k d (fun i j =>
          Fin (s * spec_gradient n d k (Rmat (view NaN X bx)) (Rflat d a) M
                     i j)) :: h)
       (bheap w) (with_n_iter_ (it + 1) (self w)) (console w ++ es)
       (clock w) t).
Proof.
  intros Hv Hm Hbr Hbc HM Hit.
  pose proof (loss_grad_v_valid w A X mask n d k a bx bm s M Hv Hbr Hbc HM)
    as Hval.
  destruct Hv as [Hn Hd Hk HA Hvl Hal Haf HX Hr Hc Hxl Hxf].
  destruct (loss_grad_run w A X mask (Fin s) a bx bm it HA
              ltac:(congruence) HX Hm Hit) as (h & es & t & Hext & Hes & Hrun).
  exists h, es, t. split; [assumption|]. split; [assumption|].
  rewrite Hrun, Hval. simpl. now rewrite length_tab2.
Qed.

(** A mask of the shape of a valid call reads as itself. *)
Lemma valid_mask_reads w mask n bm :
  2 <= n -> valid_mask w mask n bm ->
  bdim n (rows mask) = Some n /\ bdim n (cols mask) = Some n /\
  forall i j, i < n -> j < n ->
    bget (view false mask bm) (bidx (rows mask) i) (bidx (cols mask) j) =
    bget (view false mask bm) i j.
Proof.
  intros Hn [Hm Hr Hc Hl]. rewrite Hr, Hc.
  split; [apply bdim_refl|]. split; [apply bdim_refl|].
  intros i j Hi Hj. now rewrite !bidx_same.
Qed.

(** ** Properties of the softmax *)

Lemma softmax_Z_pos n D i : 2 <= n -> i < n -> (0 < softmax_Z n D i)%R.
Proof.
  intros. unfold softmax_Z.
  now apply (offdiag_sum_pos n i (fun l => - D i l)%R).
Qed.


Lemma softmax_P_nonneg n D i j :
  2 <= n -> i < n -> (0 <= softmax_P n D i j)%R.
Proof.
  intros Hn Hi. unfold softmax_P. destruct (i =? j); [lra|].
  pose proof (softmax_Z_pos n D i Hn Hi). pose proof (exp_pos (- D i j)).
  left. now apply Rdiv_lt_0_compat.
Qed.

Lemma softmax_P_row n D i :
  2 <= n -> i < n -> Rsum n (softmax_P n D i) = 1%R.
Proof.
  intros Hn Hi. pose proof (softmax_Z_pos n D i Hn Hi) as HZ.
  rewrite (Rsum_ext n _
             (fun j => (if i =? j then 0 else exp (- D i j)) * / softmax_Z n D i)%R).
  - rewrite Rsum_scal_r. fold (softmax_Z n D i). field. lra.
  - intros j _. unfold softmax_P. destruct (i =? j); [lra|]. reflexivity.
Qed.

Lemma spec_p_range n d k X L M i :
  2 <= n -> i < n -> (0 <= spec_p n d k X L M i <= 1)%R.
Proof.
  intros Hn Hi. unfold spec_p. split.
  - apply Rsum_nonneg. intros j _. unfold spec_PM.
    pose proof (softmax_P_nonneg n (spec_D d k X L) i j Hn Hi).
    unfold spec_P. destruct (M i j); lra.
  - rewrite <- (softmax_P_row n (spec_D d k X L) i Hn Hi).
    apply Rsum_le. intros j _. unfold spec_PM, spec_P.
    pose proof (softmax_P_nonneg n (spec_D d k X L) i j Hn Hi).
    destruct (M i j); lra.
Qed.

Lemma spec_loss_range n d k X L M :
  2 <= n -> (0 <= spec_loss n d k X L M <= INR n)%R.
Proof.
  intros Hn. unfold spec_loss. split.
  - apply Rsum_nonneg. intros i Hi. now apply (spec_p_range n d k X L M).
  - replace (INR n) with (Rsum n (fun _ => 1%R)) by (rewrite Rsum_const; lra).
    apply Rsum_le. intros i Hi. now apply (spec_p_range n d k X L M).
Qed.


(** ** The claims on the evaluator *)








(** The mask that [fit] builds from labels that are all equal and finite
    is True everywhere. *)
Lemma same_class_all_equal labels c :
  Forall (fun l => l = Fin c) labels ->
  forallb (fun b => b) (pdata (same_class_v labels)) = true.
Proof.
  intros Hl. unfold same_class_v. simpl. apply forallb_tab2.
  intros i j Hi Hj. rewrite Forall_forall in Hl.
  rewrite (Hl (nth i labels NaN)) by now apply nth_In.
  rewrite (Hl (nth j labels NaN)) by now apply nth_In.
  simpl. unfold Reqb. destruct (Req_dec_T c c); congruence.
Qed.



(** C4.  The outcome of a call is a function of the contents of its
    arguments alone: two calls on arrays with the same contents and the
    same sign have the same outcome, whatever the counter, the other
    attributes, the console, the clock and the rest of the store are. *)
Theorem C4_deterministic w1 w2 A1 A2 X1 X2 mask1 mask2 sign
    a bx1 bx2 bm1 bm2 it1 it2 :
  lookup (fheap w1) (vbase A1) = Some a ->
  lookup (fheap w2) (vbase A2) = Some a ->
  vlen A1 = length a -> vlen A2 = length a ->
  lookup (fheap w1) (mbase X1) = Some bx1 ->
  lookup (fheap w2) (mbase X2) = Some bx2 ->
  view NaN X1 bx1 = view NaN X2 bx2 ->
  lookup (bheap w1) (mbase mask1) = Some bm1 ->
  lookup (bheap w2) (mbase mask2) = Some bm2 ->
  view false mask1 bm1 = view false mask2 bm2 ->
  n_iter_ (self w1) = Some it1 ->
  n_iter_ (self w2) = Some it2 ->
  same_outcome (_loss_grad_lbfgs A1 X1 mask1 sign w1)
               (_loss_grad_lbfgs A2 X2 mask2 sign w2).
Proof.
  intros HA1 HA2 Hl1 Hl2 HX1 HX2 HX HM1 HM2 HM Hit1 Hit2.
  destruct (loss_grad_run w1 A1 X1 mask1 sign a bx1 bm1 it1 HA1 Hl1 HX1 HM1
              Hit1) as (h1 & es1 & t1 & _ & _ & Hrun1).
  destruct (loss_grad_run w2 A2 X2 mask2 sign a bx2 bm2 it2 HA2 Hl2 HX2 HM2
              Hit2) as (h2 & es2 & t2 & _ & _ & Hrun2).
  rewrite Hrun1, Hrun2, HX, HM. clear Hrun1 Hrun2. unfold same_outcome.
  destruct (loss_grad_v _ _ _ _) as [e|[l g]]; simpl; [reflexivity|].
  split; [reflexivity|]. split; [reflexivity|].
  exists g. split; apply lookup_cons_new.
Qed.

Lemma C4_witness :
  same_outcome
    (_loss_grad_lbfgs ex_A ex_X ex_mask (Fin 1) ex_world)
    (_loss_grad_lbfgs ex_A ex_X ex_mask (Fin 1)
       (set_self (mk_NCA None 100 None true (Some 7%Z) None) ex_world)).
Proof.
  apply (C4_deterministic ex_world
           (set_self (mk_NCA None 100 None true (Some 7%Z) None) ex_world)
           ex_A ex_A ex_X ex_X ex_mask ex_mask (Fin 1)
           [Fin 1] [Fin 0; Fin 1] [Fin 0; Fin 1]
           [true; false; false; true] [true; false; false; true]
           0%Z 7%Z); reflexivity.
Defined.

(** ** Shape errors *)



Lemma bdim_some n r x0 :
  2 <= n -> bdim n r = Some x0 -> broadcastable n r.
Proof.
  intros Hn. unfold bdim, broadcastable.
  destruct (Nat.eqb_spec n r), (Nat.eqb_spec n 1), (Nat.eqb_spec r 1);
    intros H; try discriminate; lia.
Qed.






(** ** The probability matrix *)





(** ** The initial transform *)

Lemma lookup_app_at {B} (l h : list B) b :
  lookup (l ++ b :: h) (length h) = Some b.
Proof. apply lookup_app_old, lookup_cons_new. Qed.

(** [initial_transform] computes [initial_transform_v] into a fresh array
    below the temporaries it allocates. *)
Lemma initial_transform_run w X bx k :
  lookup (fheap w) (mbase X) = Some bx ->
  exists l,
    initial_transform X k w =
    match initial_transform_v (view NaN X bx) k with
    | inr V =>
        (inr (mk_mat (length (fheap w)) k (cols X) false),
         set_fheap (l ++ pdata V :: fheap w) w)
    | inl e => (inl e, set_fheap (l ++ fheap w) w)
    end.
Proof.
  destruct w as [fh bh s c cl tk]. norm. intros HX.
  destruct (initial_transform X k (mk_world fh bh s c cl tk))
    as [r w'] eqn:E. revert E.
  unfold initial_transform, initial_transform_v.
  rewrite bind_run. unfold np_zeros, new_mat at 1, bind at 1, alloc_f, ret.
  unfold set_fheap. norm. cbv beta iota.
  change (pr (tabulate k (cols X) ?f)) with k.
  change (pc (tabulate k (cols X) ?f)) with (cols X).
  change (pdata (tabulate k (cols X) ?f)) with (tab2 k (cols X) f).
  step np_reduce_axis0_run.
  destruct (reduce_axis0_v nmax _) as [e|hi];
    [cbv beta iota; intros [= <- <-]; now exists [tab2 k (cols X) (fun _ _ => Fin 0)]|].
  step np_reduce_axis0_run.
  destruct (reduce_axis0_v nmin _) as [e|lo];
    [cbv beta iota; intros [= <- <-];
     now exists [hi; tab2 k (cols X) (fun _ _ => Fin 0)]|].
  step np_vbinop_run.
  destruct (length hi =? length lo);
    [|cbv beta iota; intros [= <- <-];
      now exists [lo; hi; tab2 k (cols X) (fun _ _ => Fin 0)]].
  cbv zeta.
  step np_vmap_run. step np_vmap_run. step fill_diagonal_run.
  unfold view at 1. norm.
  replace (pc (view NaN X bx)) with (cols X)
    by (symmetry; apply view_shape).
  change (mk_parr k (cols X) (tab2 k (cols X) ?f)) with (tabulate k (cols X) f).
  destruct (fill_diagonal_v _ _) as [e|V] eqn:HV.
  - cbv beta iota. intros [= <- <-].
    eexists [_; _; _; _; _; _]. reflexivity.
  - erewrite 5 update_cons_old by solve_lookup. rewrite update_cons_new.
    unfold unview. norm. cbv beta iota. unfold ret. intros [= <- <-].
    eexists [_; _; _; _; _]. reflexivity.
Qed.

Lemma fold_nmax_Fin l x0 :
  fold_left nmax (map Fin l) (Fin x0) = Fin (fold_left Rmax l x0).
Proof. revert x0. induction l as [|y l IH]; intros x0; simpl; auto. Qed.

Lemma fold_nmin_Fin l x0 :
  fold_left nmin (map Fin l) (Fin x0) = Fin (fold_left Rmin l x0).
Proof. revert x0. induction l as [|y l IH]; intros x0; simpl; auto. Qed.

Lemma seq_head n : 1 <= n -> seq 0 n = 0 :: seq 1 (n - 1).
Proof. intros H. destruct n; [lia|]. simpl. now rewrite Nat.sub_0_r. Qed.

Lemma reduce_max_fin n d X :
  1 <= n ->
  reduce_axis0_v nmax (fin_mat n d X) =
  inr (map (fun j => Fin (Rcolmax n X j)) (seq 0 d)).
Proof.
  intros Hn. unfold reduce_axis0_v. simpl pr. simpl pc.
  destruct (Nat.eqb_spec n 0); [lia|]. f_equal.
  apply map_ext_in. intros j Hj. apply in_seq in Hj.
  rewrite (map_ext_in _ (fun i => Fin (X i j)))
    by (intros i Hi; apply in_seq in Hi; apply fget_fin_mat; lia).
  unfold reduce, Rcolmax. rewrite (seq_head n Hn). simpl hd. simpl tl.
  rewrite <- fold_nmax_Fin. now rewrite map_map.
Qed.

Lemma reduce_min_fin n d X :
  1 <= n ->
  reduce_axis0_v nmin (fin_mat n d X) =
  inr (map (fun j => Fin (Rcolmin n X j)) (seq 0 d)).
Proof.
  intros Hn. unfold reduce_axis0_v. simpl pr. simpl pc.
  destruct (Nat.eqb_spec n 0); [lia|]. f_equal.
  apply map_ext_in. intros j Hj. apply in_seq in Hj.
  rewrite (map_ext_in _ (fun i => Fin (X i j)))
    by (intros i Hi; apply in_seq in Hi; apply fget_fin_mat; lia).
  unfold reduce, Rcolmin. rewrite (seq_head n Hn). simpl hd. simpl tl.
  rewrite <- fold_nmin_Fin. now rewrite map_map.
Qed.

Lemma combine_map {A B C} (f : A -> B) (g : A -> C) l :
  combine (map f l) (map g l) = map (fun a => (f a, g a)) l.
Proof. induction l; simpl; congruence. Qed.

Lemma machine_eps_pos : (0 < machine_eps)%R.
Proof. unfold machine_eps. apply Rinv_0_lt_compat. apply pow_lt. lra. Qed.

Lemma ndiv_one_floor r :
  ndiv (Fin 1) (nmax (Fin r) EPS) = Fin (1 / Rmax r machine_eps).
Proof.
  unfold EPS. simpl.
  assert (H : (0 < Rmax r machine_eps)%R).
  { pose proof machine_eps_pos. pose proof (Rmax_r r machine_eps). lra. }
  now rewrite (Rsign_pos _ H).
Qed.

(** Overwriting the diagonal of any matrix by one value per column. *)
Lemma fill_diagonal_cols k d F g :
  fill_diagonal_v (map (fun j => Fin (g j)) (seq 0 d)) (fin_mat k d F) =
  inr (fin_mat k d (fun i j => if i =? j then g i else F i j)).
Proof.
  unfold fill_diagonal_v.
  destruct (map _ (seq 0 d)) as [|v0 vs] eqn:Hv.
  - destruct d; [|discriminate]. simpl pc. rewrite orb_true_r. reflexivity.
  - rewrite <- Hv. f_equal. simpl. tab_ext.
    rewrite length_map, length_seq.
    destruct (Nat.eqb_spec i j) as [->|]; [|reflexivity].
    rewrite Nat.mod_small by lia. now rewrite nth_map_seq.
Qed.

Lemma initial_transform_v_fin n d k X :
  1 <= n ->
  initial_transform_v (fin_mat n d X) k =
  inr (fin_mat k d (spec_L0 n X machine_eps)).
Proof.
  intros Hn. unfold initial_transform_v.
  rewrite reduce_max_fin, reduce_min_fin by assumption.
  rewrite !length_map, Nat.eqb_refl, combine_map, !map_map. simpl pc.
  rewrite (map_ext _ (fun j => Fin (1 / Rmax (Rcolmax n X j - Rcolmin n X j)
                                      machine_eps)))
    by (intros j; apply ndiv_one_floor).
  change (tabulate k d (fun _ _ => Fin 0)) with (fin_mat k d (fun _ _ => 0%R)).
  rewrite fill_diagonal_cols. f_equal. apply fin_mat_ext.
  intros i j _ _. unfold spec_L0.
  destruct (Nat.eqb_spec i j) as [->|]; reflexivity.
Qed.

(** The initial transform of finite data with at least one sample. *)
Lemma initial_transform_ok w X bx n d k :
  lookup (fheap w) (mbase X) = Some bx ->
  rows X = n -> cols X = d -> 1 <= n ->
  length bx = n * d -> forallb isfinite bx = true ->
  exists l,
    initial_transform X k w =
    (inr (mk_mat (length (fheap w)) k d false),
     set_fheap
       (l ++ tab2 k d (fun i j =>
               Fin (spec_L0 n (Rmat (view NaN X bx)) machine_eps i j))
          :: fheap w) w).
Proof.
  intros HX Hr Hc Hn Hl Hf. subst n d.
  destruct (initial_transform_run w X bx k HX) as [l Hrun].
  exists l. rewrite Hrun.
  rewrite (view_fin X bx Hl Hf) at 1.
  now rewrite initial_transform_v_fin.
Qed.








(** ** Running the optimizer *)

Lemma with_n_iter_same s it :
  n_iter_ s = Some it -> with_n_iter_ it s = s.
Proof. destruct s. simpl. now intros ->. Qed.

Lemma with_n_iter_twice a b s :
  with_n_iter_ a (with_n_iter_ b s) = with_n_iter_ a s.
Proof. reflexivity. Qed.

(** The optimizer returns, having called the evaluator [c] times; each
    call has added 1 to the counter. *)
Lemma run_optimizer_ok X mask n d k bm t :
  well_behaved (k * d) t ->
  forall w bx it,
    2 <= n -> 1 <= d -> 1 <= k ->
    lookup (fheap w) (mbase X) = Some bx ->
    rows X = n -> cols X = d ->
    length bx = n * d -> forallb isfinite bx = true ->
    valid_mask w mask n bm ->
    n_iter_ (self w) = Some it ->
    exists res c h es tk,
      returns_after t res c /\
      length (x res) = k * d /\
      ext (fheap w) h /\
      Forall (fun e => is_progress e = true) es /\
      run_optimizer (fun a => _loss_grad_lbfgs a X mask (Fin (-1))) t w =
      (inr res,
       mk_world h (bheap w) (with_n_iter_ (it + Z.of_nat c) (self w))
                (console w ++ es) (clock w) tk).
Proof.
  induction 1 as [res Hlen | x0 kont Hlen Hfin Hk IH];
    intros w bx it Hn Hd Hk1 HX Hr Hc Hxl Hxf Hm Hit.
  - exists res, 0, (fheap w), [], (ticks w).
    split; [constructor|]. split; [assumption|]. split; [apply ext_refl|].
    split; [constructor|]. simpl.
    rewrite Z.add_0_r, with_n_iter_same, app_nil_r by assumption.
    now destruct w.
  - simpl run_optimizer.
    set (w1 := set_fheap (x0 :: fheap w) w).
    set (xv := mk_vec (length (fheap w)) (length x0)).
    assert (Hv : valid_data w1 xv X n d k x0 bx).
    { constructor; auto; solve_lookup. }
    destruct (valid_mask_reads w mask n bm Hn Hm) as (Hbr & Hbc & HM).
    destruct (loss_grad_ok w1 xv X mask n d k x0 bx bm (-1) _ it Hv
                (vm_M Hm) Hbr Hbc HM Hit)
      as (h & es & tk & Hext & Hes & Hrun).
    set (f := Fin (-1 * spec_loss n d k (Rmat (view NaN X bx)) (Rflat d x0)
                          (bget (view false mask bm)))) in *.
    set (g := tab2 k d (fun i j =>
                 Fin (-1 * spec_gradient n d k (Rmat (view NaN X bx))
                             (Rflat d x0) (bget (view false mask bm)) i j)))
      in *.
    set (w2 := mk_world (g :: h) (bheap w1) (with_n_iter_ (it + 1) (self w1))
                        (console w1 ++ es) (clock w1) tk) in *.
    assert (Hext1 : ext (fheap w) h).
    { eapply ext_trans; [|exact Hext]. unfold w1. simpl. auto with store. }
    destruct (IH f g eq_refl ltac:(apply length_tab2)
                ltac:(apply forallb_tab2; reflexivity)
                w2 bx (it + 1)%Z Hn Hd Hk1)
      as (res & c & h' & es' & tk' & Hret & Hrl & Hext' & Hes' & Hrun');
      auto.
    { unfold w2. simpl. apply lookup_cons_old. eapply ext_lookup; eauto. }
    { destruct Hm. constructor; auto. }
    exists res, (S c), h', (es ++ es'), tk'.
    split; [econstructor; exact Hret|]. split; [assumption|].
    split; [eapply ext_trans; [|exact Hext']; unfold w2; simpl;
            auto with store|].
    split; [now apply Forall_app|].
    rewrite bind_run.
    change (new_vec x0 w) with (@inr error vec xv, w1). cbv beta iota.
    rewrite bind_run, Hrun. cbv beta iota. simpl snd. simpl fst.
    rewrite bind_run.
    erewrite vsnap_run by (simpl; apply lookup_cons_new).
    cbv beta iota. fold g f w2. rewrite Hrun'.
    unfold w2, w1. simpl. rewrite app_assoc.
    replace (it + 1 + Z.of_nat c)%Z with (it + Z.pos (Pos.of_succ_nat c))%Z
      by lia.
    reflexivity.
Qed.

(** ** Running [fit] *)

Lemma view_length m bx :
  length bx = rows m * cols m ->
  length (pdata (view NaN m bx)) = rows m * cols m.
Proof.
  intros H. unfold view. destruct (tr m); simpl; auto. apply length_tab2.
Qed.

Lemma view_forallb m bx :
  length bx = rows m * cols m -> forallb isfinite bx = true ->
  forallb isfinite (pdata (view NaN m bx)) = true.
Proof.
  intros Hl Hf. unfold view. destruct (tr m); simpl; auto.
  apply forallb_tab2. intros i j Hi Hj.
  rewrite forallb_forall in Hf. apply Hf. apply nth_In. nia.
Qed.

Lemma prepare_inputs_ok w X y n d bx ly :
  valid_fit_input w X y n d bx ly ->
  _prepare_inputs X y 2 w = (inr (X, y), w).
Proof.
  intros [Hn Hd HX Hr Hc Hxl Hxf Hy Hvl Hyl Hyf]. unfold _prepare_inputs.
  rewrite bind_run, (snap_run _ _ _ HX). cbv beta iota.
  rewrite bind_run, (vsnap_run _ _ _ Hy). cbv beta iota.
  subst n d.
  rewrite view_length, view_forallb, Hyl, Hvl, Hyf, !Nat.eqb_refl by assumption.
  destruct (Nat.leb_spec 2 (rows X)); [reflexivity|lia].
Qed.

Lemma same_class_mask_run w y ly :
  lookup (fheap w) (vbase y) = Some ly ->
  same_class_mask y w =
  (inr (mk_mat (length (bheap w)) (length ly) (length ly) false),
   set_bheap (pdata (same_class_v ly) :: bheap w) w).
Proof.
  intros Hy. unfold same_class_mask.
  rewrite bind_run, (vsnap_run _ _ _ Hy). reflexivity.
Qed.

(** Lines 98-124 on valid input: the optimizer is started at the initial
    transform of the specification and returns, the counter then holding
    the number of evaluations it has made. *)
Lemma fit_optimize_ok minimize w X y n d k bx ly :
  valid_fit_input w X y n d bx ly ->
  k = embedding_dim (self w) d -> 1 <= k ->
  (forall x0, length x0 = k * d -> forallb isfinite x0 = true ->
     well_behaved (k * d) (minimize x0 (max_iter (self w)) (tol (self w)))) ->
  exists res c h bh es tk,
    returns_after
      (minimize
         (tab2 k d (fun i j =>
            Fin (spec_L0 n (Rmat (view NaN X bx)) machine_eps i j)))
         (max_iter (self w)) (tol (self w))) res c /\
    length (x res) = k * d /\
    ext (fheap w) h /\
    Forall (fun e => is_progress e = true) es /\
    fit_optimize minimize X y w =
    (inr (X, clock w (ticks w), res),
     mk_world h bh (with_n_iter_ (Z.of_nat c) (self w)) (console w ++ es)
              (clock w) tk).
Proof.
  intros Hv Hk Hk1 Hwb.
  pose proof (prepare_inputs_ok w X y n d bx ly Hv) as Hprep.
  destruct Hv as [Hn Hd HX Hr Hc Hxl Hxf Hy Hvl Hyl Hyf].
  destruct w as [fh bh s c cl tk]. cbn [fheap self clock ticks console] in *.
  set (L0 := tab2 k d (fun i j =>
               Fin (spec_L0 n (Rmat (view NaN X bx)) machine_eps i j))).
  set (w1 := mk_world fh bh s c cl (S tk)).
  destruct (initial_transform_ok w1 X bx n d k HX Hr Hc ltac:(lia) Hxl Hxf)
    as [l Hinit]. fold L0 in Hinit.
  set (Mb := pdata (same_class_v ly)).
  set (mask := mk_mat (length bh) (length ly) (length ly) false).
  set (w5 := mk_world (l ++ L0 :: fh) (Mb :: bh) (with_n_iter_ 0 s) c cl (S tk)).
  assert (HL0 : length L0 = k * d) by apply length_tab2.
  destruct (run_optimizer_ok X mask n d k Mb
              (minimize L0 (max_iter s) (tol s))
              (Hwb L0 HL0 ltac:(apply forallb_tab2; reflexivity))
              w5 bx 0%Z Hn Hd Hk1)
    as (res & cnt & h & es & tk' & Hret & Hrl & Hext & Hes & Hrun); auto.
  { unfold w5. simpl. apply lookup_app_old. now apply lookup_cons_old. }
  { unfold w5, mask. constructor; simpl.
    - apply lookup_cons_new.
    - assumption.
    - assumption.
    - unfold Mb, same_class_v. simpl. rewrite length_tab2. now rewrite Hyl. }
  exists res, cnt, h, (Mb :: bh), es, tk'.
  split; [exact Hret|]. split; [exact Hrl|].
  split. { eapply ext_trans; [|exact Hext]. unfold w5. simpl.
           auto with store. }
  split; [exact Hes|].
  unfold fit_optimize. rewrite bind_run, Hprep. cbv beta iota zeta.
  simpl fst. simpl snd.
  rewrite bind_run. unfold get_self at 1. norm. cbv beta iota.
  rewrite bind_run. unfold time_time at 1. norm. cbv beta iota.
  fold w1. rewrite bind_run. rewrite Hc.
  change (match num_dims s with Some k0 => k0 | None => d end)
    with (embedding_dim s d). rewrite <- Hk. rewrite Hinit. cbv beta iota.
  rewrite bind_run, same_class_mask_run with (ly := ly)
    by (unfold w1; simpl; apply lookup_app_old; now apply lookup_cons_old).
  cbv beta iota. rewrite bind_run. unfold ravel. norm. unfold ret at 1.
  cbv beta iota. rewrite bind_run.
  unfold set_n_iter_, bind at 1, get_self, put_self. unfold w1. simpl.
  rewrite bind_run.
  erewrite vsnap_run by (simpl; apply lookup_app_at).
  cbv beta iota. fold mask. rewrite bind_run.
  match goal with
  | |- context [run_optimizer ?f ?t ?W] => change W with w5
  end.
  rewrite Hrun. reflexivity.
Qed.

(** Lines 126-141, when the point the optimizer returned has the length
    of the transform. *)
Lemma fit_finish_run w X t0 res d k :
  cols X = d -> 1 <= d -> length (x res) = k * d ->
  fit_finish X t0 res w =
  (inr tt,
   mk_world (x res :: fheap w) (bheap w)
     (with_n_iter_ (nit res)
        (with_transformer_ (mk_mat (length (fheap w)) k d false) (self w)))
     (console w ++ finish_events (self w) res (nsub (clock w (ticks w)) t0))
     (clock w) (S (ticks w))).
Proof.
  intros Hc Hd Hl. destruct w as [fh bh s c cl tk]. unfold fit_finish.
  rewrite bind_run. unfold new_vec, bind at 1, alloc_f, ret. norm.
  unfold set_fheap. norm. cbv beta iota.
  rewrite bind_run. unfold reshape. norm. rewrite Hc, Hl.
  rewrite Nat.Div0.mod_mul, Nat.div_mul by lia.
  destruct (Nat.eqb_spec d 0); [lia|].
  change (false || negb (0 =? 0)) with false. cbv beta iota.
  unfold finish_events, bind, set_transformer_, set_n_iter_, bind, get_self,
    put_self, set_self, time_time, print, ret. simpl.
  destruct (verbose s); [|now rewrite app_nil_r].
  destruct (success res); simpl; [reflexivity|].
  now rewrite <- app_assoc.
Qed.

(** [fit] on valid input with a well-behaved optimizer. *)
Lemma fit_ok minimize w X y n d k bx ly :
  valid_fit_input w X y n d bx ly ->
  k = embedding_dim (self w) d -> 1 <= k ->
  (forall x0, length x0 = k * d -> forallb isfinite x0 = true ->
     well_behaved (k * d) (minimize x0 (max_iter (self w)) (tol (self w)))) ->
  exists res c t0 w1 w2 es,
    returns_after
      (minimize
         (tab2 k d (fun i j =>
            Fin (spec_L0 n (Rmat (view NaN X bx)) machine_eps i j)))
         (max_iter (self w)) (tol (self w))) res c /\
    fit_optimize minimize X y w = (inr (X, t0, res), w1) /\
    n_iter_ (self w1) = Some (Z.of_nat c) /\
    fit_finish X t0 res w1 = (inr tt, w2) /\
    fit minimize X y w = (inr tt, w2) /\
    n_iter_ (self w2) = Some (nit res) /\
    transformer_ (self w2) = Some (mk_mat (length (fheap w1)) k d false) /\
    lookup (fheap w2) (length (fheap w1)) = Some (x res) /\
    console w2 = console w ++ es /\
    ((exists m, In (Warn m) es) <->
     (verbose (self w) = true /\ success res = false)).
Proof.
  intros Hv Hk Hk1 Hwb.
  destruct (fit_optimize_ok minimize w X y n d k bx ly Hv Hk Hk1 Hwb)
    as (res & c & h & bh & es & tk & Hret & Hrl & Hext & Hes & Hopt).
  set (w1 := mk_world h bh (with_n_iter_ (Z.of_nat c) (self w))
                      (console w ++ es) (clock w) tk) in *.
  pose proof (fit_finish_run w1 X (clock w (ticks w)) res d k
                (vf_cols Hv) (vf_d Hv) Hrl) as Hfin.
  set (fe := finish_events (self w1) res
               (nsub (clock w1 (ticks w1)) (clock w (ticks w)))) in *.
  eexists res, c, _, w1, _, (es ++ fe).
  split; [exact Hret|]. split; [exact Hopt|]. split; [reflexivity|].
  split; [exact Hfin|].
  split. { unfold fit. rewrite bind_run, Hopt. exact Hfin. }
  split; [reflexivity|]. split; [reflexivity|].
  split; [apply lookup_cons_new|].
  split. { simpl. now rewrite app_assoc. }
  assert (Hno : forall m, ~ In (Warn m) es).
  { intros m Hin. rewrite Forall_forall in Hes.
    specialize (Hes _ Hin). discriminate. }
  unfold fe, finish_events. simpl verbose.
  split.
  - intros [m Hin]. apply in_app_or in Hin.
    destruct Hin as [Hin|Hin]; [now apply Hno in Hin|].
    destruct (verbose (self w)); [|contradiction].
    destruct (success res); simpl in Hin.
    + destruct Hin as [Hin|[]]. discriminate.
    + auto.
  - intros [-> ->]. eexists. apply in_or_app. right. simpl. left.
    reflexivity.
Qed.

(** ** The claims on [fit] *)




(** C6, as the code has it.  A call of the evaluator never decreases the
    counter: it adds exactly 1 when it returns and nothing when it raises.
    In [fit] the counter is set to 0 before the optimizer starts and holds
    the number of evaluations made when the optimizer returns; [fit] then
    overwrites it with the iteration count the optimizer reports. *)
Theorem C6_counter minimize w X y n d k bx ly :
  valid_fit_input w X y n d bx ly ->
  k = embedding_dim (self w) d -> 1 <= k ->
  (forall x0, length x0 = k * d -> forallb isfinite x0 = true ->
     well_behaved (k * d) (minimize x0 (max_iter (self w)) (tol (self w)))) ->
  (forall w0 A X0 mask sign a bx0 bm it,
     lookup (fheap w0) (vbase A) = Some a ->
     vlen A = length a ->
     lookup (fheap w0) (mbase X0) = Some bx0 ->
     lookup (bheap w0) (mbase mask) = Some bm ->
     n_iter_ (self w0) = Some it ->
     let o := _loss_grad_lbfgs A X0 mask sign w0 in
     n_iter_ (self (snd o)) =
     match fst o with inr _ => Some (it + 1)%Z | inl _ => Some it end) /\
  exists res c t0 w1 w2,
    returns_after
      (minimize
         (tab2 k d (fun i j =>
            Fin (spec_L0 n (Rmat (view NaN X bx)) machine_eps i j)))
         (max_iter (self w)) (tol (self w))) res c /\
    fit_optimize minimize X y w = (inr (X, t0, res), w1) /\
    n_iter_ (self w1) = Some (Z.of_nat c) /\
    fit_finish X t0 res w1 = (inr tt, w2) /\
    fit minimize X y w = (inr tt, w2) /\
    n_iter_ (self w2) = Some (nit res).
Proof.
  intros Hv Hk Hk1 Hwb. split.
  - intros w0 A X0 mask sign a bx0 bm it HA Hlen HX HM Hit o.
    destruct (loss_grad_run w0 A X0 mask sign a bx0 bm it HA Hlen HX HM Hit)
      as (h & es & t & _ & _ & Hrun).
    subst o. rewrite Hrun.
    now destruct (loss_grad_v _ _ _ _).
  - destruct (fit_ok minimize w X y n d k bx ly Hv Hk Hk1 Hwb)
      as (res & c & t0 & w1 & w2 & es & Hret & Hopt & Hn1 & Hfin & Hfit &
          Hn2 & _).
    exists res, c, t0, w1, w2. auto 10.
Qed.

Lemma C6_witness :
  (forall w0 A X0 mask sign a bx0 bm it,
     lookup (fheap w0) (vbase A) = Some a ->
     vlen A = length a ->
     lookup (fheap w0) (mbase X0) = Some bx0 ->
     lookup (bheap w0) (mbase mask) = Some bm ->
     n_iter_ (self w0) = Some it ->
     let o := _loss_grad_lbfgs A X0 mask sign w0 in
     n_iter_ (self (snd o)) =
     match fst o with inr _ => Some (it + 1)%Z | inl _ => Some it end) /\
  exists res c t0 w1 w2,
    returns_after
      (ex_one_call_minimize
         (tab2 1 1 (fun i j =>
            Fin (spec_L0 2 (Rmat (view NaN ex_fit_X [Fin 0; Fin 1]))
                         machine_eps i j)))
         (max_iter (self ex_fit_world)) (tol (self ex_fit_world))) res c /\
    fit_optimize ex_one_call_minimize ex_fit_X ex_fit_y ex_fit_world =
    (inr (ex_fit_X, t0, res), w1) /\
    n_iter_ (self w1) = Some (Z.of_nat c) /\
    fit_finish ex_fit_X t0 res w1 = (inr tt, w2) /\
    fit ex_one_call_minimize ex_fit_X ex_fit_y ex_fit_world = (inr tt, w2) /\
    n_iter_ (self w2) = Some (nit res).
Proof.
  apply (C6_counter ex_one_call_minimize ex_fit_world ex_fit_X ex_fit_y
           2 1 1 [Fin 0; Fin 1] [Fin 0; Fin 1]).
  - constructor; try reflexivity; lia.
  - reflexivity.
  - lia.
  - intros x0 Hl Hf. constructor; [exact Hl|exact Hf|].
    intros f g _ _ _. constructor. exact Hl.
Defined.

(** An optimizer that evaluates the starting point once and reports 0
    iterations: the counter is 1 when it returns, and [fit] then sets it
    to 0. *)
Lemma C6_counterexample :
  ~ final_assignment_monotone ex_one_call_minimize ex_fit_X ex_fit_y
      ex_fit_world.
Proof.
  intros Hmono.
  assert (Hv : valid_fit_input ex_fit_world ex_fit_X ex_fit_y 2 1
                 [Fin 0; Fin 1] [Fin 0; Fin 1])
    by (constructor; try reflexivity; lia).
  destruct (fit_ok ex_one_call_minimize ex_fit_world ex_fit_X ex_fit_y 2 1 1
              [Fin 0; Fin 1] [Fin 0; Fin 1] Hv eq_refl ltac:(lia)
              ltac:(intros x0 Hl Hf; constructor; [exact Hl|exact Hf|];
                    intros f g _ _ _; constructor; exact Hl))
    as (res & c & t0 & w1 & w2 & es & Hret & Hopt & Hn1 & Hfin & _ & Hn2 & _).
  pose proof (Hmono _ w1 w2 _ _ Hopt Hfin Hn1 Hn2) as Hle.
  unfold ex_one_call_minimize in Hret.
  inversion Hret as [|x0 kont f g res' c' Hret' E1 E2 E3]; subst.
  inversion Hret'; subst. simpl in Hle. lia.
Qed.

(** * Further properties *)

(** ** Statements that keep an invariant *)

Lemma preserves_ret {A} (Inv : world -> Prop) (a : A) (Q : A -> Prop) :
  Q a -> preserves Inv (ret a) Q.
Proof. intros HQ w HI. now split. Qed.

Lemma preserves_raise {A} (Inv : world -> Prop) e (Q : A -> Prop) :
  preserves Inv (raise e) Q.
Proof. intros w HI. now split. Qed.

Lemma preserves_bind {A B} (Inv : world -> Prop) (m : M A) (k : A -> M B)
    (Q : A -> Prop) (R : B -> Prop) :
  preserves Inv m Q -> (forall a, Q a -> preserves Inv (k a) R) ->
  preserves Inv (bind m k) R.
Proof.
  intros Hm Hk w HI. destruct (Hm w HI) as [HI' HQ]. unfold bind.
  destruct (m w) as [[e|a] w']; simpl in *; [now split|].
  now apply Hk.
Qed.

Lemma preserves_weaken {A} (Inv : world -> Prop) (m : M A) (Q R : A -> Prop) :
  preserves Inv m Q -> (forall a, Q a -> R a) -> preserves Inv m R.
Proof.
  intros Hm HQR w HI. destruct (Hm w HI) as [HI' HQ]. split; [assumption|].
  destruct (fst (m w)); auto.
Qed.

Lemma preserves_liftE {A} (Inv : world -> Prop) (r : result A) :
  preserves Inv (liftE r) (fun _ => True).
Proof. intros w HI. unfold liftE. simpl. split; [assumption|]. now destruct r. Qed.

(** ** The invariant of the store *)

Lemma ext_length {B} (h h' : list B) : ext h h' -> length h <= length h'.
Proof. intros [l ->]. rewrite length_app. lia. Qed.

Lemma update_beyond {B} (h : list B) a b : length h <= a -> update h a b = h.
Proof.
  induction h as [|x0 h IH]; simpl; intros Ha; [reflexivity|].
  destruct (Nat.eqb_spec a (length h)); [lia|]. now rewrite IH by lia.
Qed.

(** Writing to a buffer allocated later leaves the earlier store alone. *)
Lemma ext_update {B} (h h' : list B) a b :
  ext h h' -> length h <= a -> ext h (update h' a b).
Proof.
  intros [l ->] Ha. induction l as [|x0 l IH]; simpl.
  - rewrite update_beyond by assumption. apply ext_refl.
  - destruct (a =? length (l ++ h)); apply ext_cons;
      [now exists l | exact IH].
Qed.

Lemma grown_refl {B} (l : list B) : grown l l.
Proof. exists []. now rewrite app_nil_r. Qed.

Lemma grown_snoc {B} (l l' : list B) e : grown l l' -> grown l (l' ++ [e]).
Proof. intros [es ->]. exists (es ++ [e]). now rewrite app_assoc. Qed.

Lemma kept_refl w : kept w w.
Proof.
  constructor; auto using ext_refl, grown_refl.
Qed.

Lemma untouched_refl w : untouched w w.
Proof. split; [apply kept_refl|reflexivity]. Qed.

Section Untouched.

Variable w0 : world.

Local Abbreviation Inv := (untouched w0).

Lemma untouched_alloc_f w b :
  Inv w -> Inv (set_fheap (b :: fheap w) w).
Proof.
  intros [[] Ht]. split; [constructor|]; simpl; auto using ext_cons.
Qed.

Lemma untouched_alloc_b w b :
  Inv w -> Inv (set_bheap (b :: bheap w) w).
Proof.
  intros [[] Ht]. split; [constructor|]; simpl; auto using ext_cons.
Qed.

Lemma untouched_store_f w a b :
  Inv w -> length (fheap w0) <= a -> Inv (set_fheap (update (fheap w) a b) w).
Proof.
  intros [[] Ht] Ha. split; [constructor|]; simpl; auto using ext_update.
Qed.

Lemma untouched_tick w :
  Inv w ->
  Inv (mk_world (fheap w) (bheap w) (self w) (console w) (clock w) (S (ticks w))).
Proof.
  intros [[] Ht]. split; [constructor|]; simpl; auto.
Qed.

Lemma untouched_counter w k :
  Inv w -> Inv (set_self (with_n_iter_ k (self w)) w).
Proof.
  intros [[] Ht]. split; [constructor|]; simpl; auto.
Qed.

Lemma untouched_print w e :
  verbose (self w0) = true -> Inv w ->
  Inv (mk_world (fheap w) (bheap w) (self w) (console w ++ [e]) (clock w)
              (ticks w)).
Proof.
  intros Hv [[] Ht]. split; [constructor|]; simpl; auto using grown_snoc.
  congruence.
Qed.

Lemma untouched_fresh w : Inv w -> length (fheap w0) <= length (fheap w).
Proof. intros [[] _]. now apply ext_length. Qed.

End Untouched.

(** ** The numpy operations keep the store *)

Ltac run_prims :=
  unfold snap, bsnap, vsnap, new_mat, new_bmat, new_vec, load_f, load_b,
    alloc_f, alloc_b, store_f, liftE, bind, ret, raise.

Ltac split_innermost t :=
  lazymatch t with
  | context [match ?u with _ => _ end] => split_innermost u
  | _ => destruct t
  end.

Ltac split_matches :=
  repeat (cbn [fst snd];
          match goal with
          | |- context [match ?t with _ => _ end] => split_innermost t
          end).

Ltac keeps_alloc :=
  let w := fresh "w" in
  let HI := fresh "HI" in
  intros w HI; run_prims; split_matches; cbn [fst snd];
  (split;
   [ auto using untouched_alloc_f, untouched_alloc_b
   | try exact I;
     try (unfold fresh_m, fresh_v; cbn [mbase vbase];
          eapply untouched_fresh; eassumption) ]).

Section Keeps.

Variable w0 : world.

Local Abbreviation Inv := (untouched w0).

Lemma np_dot_keeps a b : preserves Inv (np_dot a b) (fresh_m w0).
Proof. unfold np_dot. keeps_alloc. Qed.

Lemma np_binop_keeps op a b : preserves Inv (np_binop op a b) (fresh_m w0).
Proof. unfold np_binop. keeps_alloc. Qed.

Lemma np_mul_mask_keeps a b : preserves Inv (np_mul_mask a b) (fresh_m w0).
Proof. unfold np_mul_mask. keeps_alloc. Qed.

Lemma np_map_keeps f a : preserves Inv (np_map f a) (fresh_m w0).
Proof. unfold np_map. keeps_alloc. Qed.

Lemma np_vmap_keeps f v : preserves Inv (np_vmap f v) (fresh_v w0).
Proof. unfold np_vmap. keeps_alloc. Qed.

Lemma np_vbinop_keeps op a b : preserves Inv (np_vbinop op a b) (fresh_v w0).
Proof. unfold np_vbinop. keeps_alloc. Qed.

Lemma np_sum_axis1_keepdims_keeps a :
  preserves Inv (np_sum_axis1_keepdims a) (fresh_m w0).
Proof. unfold np_sum_axis1_keepdims. keeps_alloc. Qed.

Lemma np_sum_axis0_keeps a : preserves Inv (np_sum_axis0 a) (fresh_v w0).
Proof. unfold np_sum_axis0. keeps_alloc. Qed.

Lemma np_sum_keeps a : preserves Inv (np_sum a) (fun _ => True).
Proof. unfold np_sum. keeps_alloc. Qed.

Lemma np_reduce_axis0_keeps op a :
  preserves Inv (np_reduce_axis0 op a) (fresh_v w0).
Proof. unfold np_reduce_axis0. keeps_alloc. Qed.

Lemma np_zeros_keeps r c : preserves Inv (np_zeros r c) (fresh_m w0).
Proof. unfold np_zeros. keeps_alloc. Qed.

Lemma pairwise_distances_keeps a :
  preserves Inv (pairwise_distances a) (fresh_m w0).
Proof. unfold pairwise_distances. keeps_alloc. Qed.

Lemma logsumexp_keeps a : preserves Inv (logsumexp a) (fresh_v w0).
Proof. unfold logsumexp. keeps_alloc. Qed.

Lemma same_class_mask_keeps y : preserves Inv (same_class_mask y) (fun _ => True).
Proof. unfold same_class_mask. keeps_alloc. Qed.

Lemma new_vec_keeps l : preserves Inv (new_vec l) (fresh_v w0).
Proof. keeps_alloc. Qed.

Lemma vsnap_keeps v : preserves Inv (vsnap v) (fun _ => True).
Proof. keeps_alloc. Qed.

Lemma ravel_keeps m :
  fresh_m w0 m -> preserves Inv (ravel m) (fresh_v w0).
Proof.
  intros Hm. unfold ravel. destruct (tr m); [keeps_alloc|].
  now apply preserves_ret.
Qed.

Lemma reshape_keeps v d :
  preserves Inv (reshape v d) (fun m => mbase m = vbase v).
Proof.
  unfold reshape. destruct (_ || _); [apply preserves_raise|].
  now apply preserves_ret.
Qed.

(** [np.fill_diagonal] writes, but only to the array it is given. *)
Lemma fill_diagonal_with_keeps a vals :
  fresh_m w0 a -> preserves Inv (fill_diagonal_with a vals) (fun _ => True).
Proof.
  intros Ha w HI. unfold fill_diagonal_with. run_prims. split_matches;
    cbn [fst snd]; split; auto using untouched_store_f.
Qed.

Lemma fill_diagonal_keeps a vals :
  fresh_m w0 a -> preserves Inv (fill_diagonal a vals) (fun _ => True).
Proof.
  intros Ha. unfold fill_diagonal.
  eapply preserves_bind; [apply vsnap_keeps|]. intros l _.
  now apply fill_diagonal_with_keeps.
Qed.

Lemma time_time_keeps : preserves Inv time_time (fun _ => True).
Proof. intros w HI. split; [now apply untouched_tick|exact I]. Qed.

Lemma get_n_iter_keeps : preserves Inv get_n_iter_ (fun _ => True).
Proof.
  intros w HI. unfold get_n_iter_, get_self, bind, ret, raise.
  destruct (n_iter_ (self w)); now split.
Qed.

Lemma get_self_keeps :
  preserves Inv get_self (fun s => verbose s = verbose (self w0)).
Proof. intros w HI. split; [assumption|]. simpl. now destruct HI as [[] _]. Qed.

Lemma set_n_iter_keeps k : preserves Inv (set_n_iter_ k) (fun _ => True).
Proof.
  intros w HI. split; [|exact I]. now apply untouched_counter.
Qed.

Lemma print_keeps e :
  verbose (self w0) = true -> preserves Inv (print e) (fun _ => True).
Proof. intros Hv w HI. split; [now apply untouched_print|exact I]. Qed.

End Keeps.

(** ** The evaluator and [fit] keep the store *)

Ltac kstep L :=
  eapply preserves_bind;
  [ apply L; try assumption | intros ? ? ].

Section KeepsAll.

Variable w0 : world.

Local Abbreviation Inv := (untouched w0).

Lemma softmax_distances_keeps Y :
  preserves Inv (softmax_distances Y) (fresh_m w0).
Proof.
  unfold softmax_distances.
  kstep pairwise_distances_keeps. kstep fill_diagonal_with_keeps.
  kstep np_map_keeps. kstep np_map_keeps. kstep logsumexp_keeps.
  kstep np_binop_keeps. apply np_map_keeps.
Qed.

(** Whatever is printed is printed under [if self.verbose]. *)
Lemma header_keeps (n0 : Z) s :
  verbose s = verbose (self w0) ->
  preserves Inv (if (n0 =? 0)%Z && verbose s
               then print PrintBanner ;;; print PrintHeader
               else ret tt) (fun _ => True).
Proof.
  intros Hs. destruct ((n0 =? 0)%Z); simpl;
    [|now apply preserves_ret].
  destruct (verbose s) eqn:Hv; [|now apply preserves_ret].
  kstep print_keeps; [congruence|]. apply print_keeps. congruence.
Qed.

Lemma progress_keeps s loss start_time :
  verbose s = verbose (self w0) ->
  preserves Inv (if verbose s
               then t <- time_time ;;
                    n_iter <- get_n_iter_ ;;
                    print (PrintProgress n_iter loss (nsub t start_time)) ;;;
                    print Flush
               else ret tt) (fun _ => True).
Proof.
  intros Hs. destruct (verbose s) eqn:Hv; [|now apply preserves_ret].
  kstep time_time_keeps. kstep get_n_iter_keeps.
  kstep print_keeps; [congruence|]. apply print_keeps. congruence.
Qed.

Lemma loss_grad_keeps A X mask sign :
  preserves Inv (_loss_grad_lbfgs A X mask sign) (fun r => fresh_v w0 (snd r)).
Proof.
  unfold _loss_grad_lbfgs.
  kstep get_n_iter_keeps. kstep get_self_keeps.
  kstep header_keeps. kstep time_time_keeps. kstep reshape_keeps.
  kstep np_dot_keeps. kstep softmax_distances_keeps.
  kstep np_mul_mask_keeps. kstep np_sum_axis1_keepdims_keeps.
  kstep np_sum_keeps. kstep np_binop_keeps. kstep np_binop_keeps.
  kstep np_binop_keeps. kstep np_sum_axis0_keeps. kstep np_vmap_keeps.
  kstep fill_diagonal_keeps. kstep np_dot_keeps. kstep np_dot_keeps.
  kstep np_map_keeps. kstep progress_keeps. kstep get_n_iter_keeps.
  kstep set_n_iter_keeps. kstep ravel_keeps. kstep np_vmap_keeps.
  now apply preserves_ret.
Qed.

Lemma initial_transform_keeps X k :
  preserves Inv (initial_transform X k) (fresh_m w0).
Proof.
  unfold initial_transform.
  kstep np_zeros_keeps. kstep np_reduce_axis0_keeps.
  kstep np_reduce_axis0_keeps. kstep np_vbinop_keeps. kstep np_vmap_keeps.
  kstep np_vmap_keeps. kstep fill_diagonal_keeps.
  now apply preserves_ret.
Qed.

Lemma prepare_inputs_keeps X y m :
  preserves Inv (_prepare_inputs X y m) (fun _ => True).
Proof. unfold _prepare_inputs. keeps_alloc. Qed.

(** Any optimizer, whatever it asks and however often. *)
Lemma run_optimizer_keeps (fun_ : vec -> M (num * vec)) t :
  (forall xv, preserves Inv (fun_ xv) (fun _ => True)) ->
  preserves Inv (run_optimizer fun_ t) (fun _ => True).
Proof.
  intros Hf. induction t as [x0 k IH | res]; simpl.
  - kstep new_vec_keeps. kstep Hf. kstep vsnap_keeps. apply IH.
  - now apply preserves_ret.
Qed.

Lemma fit_optimize_keeps minimize X y :
  preserves Inv (fit_optimize minimize X y) (fun _ => True).
Proof.
  unfold fit_optimize.
  kstep prepare_inputs_keeps. cbv zeta. kstep get_self_keeps.
  kstep time_time_keeps. kstep initial_transform_keeps.
  kstep same_class_mask_keeps. kstep ravel_keeps. kstep set_n_iter_keeps.
  kstep vsnap_keeps.
  eapply preserves_bind.
  - apply run_optimizer_keeps. intros xv.
    eapply preserves_weaken; [apply loss_grad_keeps|auto].
  - intros res _. now apply preserves_ret.
Qed.

(** Lines 126-141: the only assignment to [transformer_] comes after
    everything that can raise. *)
Lemma fit_finish_keeps X t0 res w :
  Inv w ->
  match fit_finish X t0 res w with
  | (inr _, w') => kept w0 w'
  | (inl _, w') => untouched w0 w'
  end.
Proof.
  intros HI. unfold fit_finish.
  rewrite bind_run. change (new_vec (x res) w)
    with (@inr error vec (mk_vec (length (fheap w)) (length (x res))),
          set_fheap (x res :: fheap w) w).
  cbv beta iota. apply (untouched_alloc_f w0 w (x res)) in HI.
  set (w1 := set_fheap (x res :: fheap w) w) in *.
  rewrite bind_run. unfold reshape.
  destruct (_ || _); [exact HI|]. unfold ret at 1. cbv beta iota.
  destruct HI as [[] Ht].
  unfold bind, set_transformer_, set_n_iter_, get_self, put_self, set_self,
    time_time, print, ret. cbn [fst snd fheap bheap self console clock ticks].
  destruct w1 as [fh bh s c cl tk]; cbn in *.
  destruct (verbose s) eqn:Hv.
  - destruct (negb (success res)); constructor; cbn; auto;
      try congruence; auto using grown_snoc.
  - constructor; cbn; auto; congruence.
Qed.

Lemma fit_keeps minimize X y w :
  Inv w ->
  match fit minimize X y w with
  | (inr _, w') => kept w0 w'
  | (inl _, w') => untouched w0 w'
  end.
Proof.
  intros HI. unfold fit. rewrite bind_run.
  destruct (fit_optimize_keeps minimize X y w HI) as [HI' _].
  destruct (fit_optimize minimize X y w) as [[e|r] w1]; [exact HI'|].
  now apply fit_finish_keeps.
Qed.

End KeepsAll.

(** ** What [fit] never does *)

(** X1.  Whatever its arguments, whatever the optimizer does and whether
    it returns or raises, [fit] leaves every buffer of the store it was
    given in place with its contents - [np.fill_diagonal], the only
    in-place write, is applied to arrays [fit] has allocated itself - and
    leaves the four constructor arguments of the object and what was on
    the console as they were. *)
Theorem X1_fit_frame minimize X y w :
  (forall a b, lookup (fheap w) a = Some b ->
               lookup (fheap (snd (fit minimize X y w))) a = Some b) /\
  (forall a b, lookup (bheap w) a = Some b ->
               lookup (bheap (snd (fit minimize X y w))) a = Some b) /\
  num_dims (self (snd (fit minimize X y w))) = num_dims (self w) /\
  max_iter (self (snd (fit minimize X y w))) = max_iter (self w) /\
  tol (self (snd (fit minimize X y w))) = tol (self w) /\
  verbose (self (snd (fit minimize X y w))) = verbose (self w) /\
  grown (console w) (console (snd (fit minimize X y w))).
Proof.
  pose proof (fit_keeps w minimize X y w (untouched_refl w)) as H.
  assert (K : kept w (snd (fit minimize X y w))).
  { destruct (fit minimize X y w) as [[e|r] w']; [apply H|exact H]. }
  destruct K. repeat split; eauto using ext_lookup.
Qed.


(** X3.  [fit] assigns [transformer_] only after everything that can
    raise (line 126): when [fit] raises, for whatever reason, the object
    holds the transform it held before. *)
Theorem X3_fit_failure_keeps_transform minimize X y w e :
  fst (fit minimize X y w) = inl e ->
  transformer_ (self (snd (fit minimize X y w))) = transformer_ (self w).
Proof.
  intros He.
  pose proof (fit_keeps w minimize X y w (untouched_refl w)) as H.
  destruct (fit minimize X y w) as [[e'|r] w']; [apply H|discriminate].
Qed.

(** ** The evaluator on what it cannot handle *)

Lemma nmul_nonfinite_r x0 y :
  isfinite y = false -> isfinite (nmul x0 y) = false.
Proof.
  destruct x0 as [a| | |], y as [b| | |]; simpl; try discriminate; auto;
    intros _; destruct (Rsign a); reflexivity.
Qed.

Lemma nadd_nonfinite_l x0 y :
  isfinite x0 = false -> isfinite (nadd x0 y) = false.
Proof. destruct x0, y; simpl; auto; discriminate. Qed.

Lemma nadd_nonfinite_r x0 y :
  isfinite y = false -> isfinite (nadd x0 y) = false.
Proof. destruct x0, y; simpl; auto; discriminate. Qed.

Lemma fold_nadd_nonfinite l acc :
  isfinite acc = false -> isfinite (fold_left nadd l acc) = false.
Proof.
  revert acc. induction l as [|y l IH]; simpl; intros acc H; auto.
  apply IH. now apply nadd_nonfinite_l.
Qed.

(** A sum with a term that is not finite is not finite. *)
Lemma nsum_list_nonfinite l y :
  In y l -> isfinite y = false -> isfinite (nsum_list l) = false.
Proof.
  unfold nsum_list. generalize (Fin 0). induction l as [|z l IH];
    simpl; intros acc Hin Hy; [contradiction|].
  destruct Hin as [->|Hin].
  - apply fold_nadd_nonfinite. now apply nadd_nonfinite_r.
  - now apply IH.
Qed.

Lemma nsum_nonfinite n f i :
  i < n -> isfinite (f i) = false -> isfinite (nsum n f) = false.
Proof.
  intros Hi Hf. unfold nsum. apply nsum_list_nonfinite with (y := f i); auto.
  apply in_map. apply in_seq. lia.
Qed.

Lemma forallb_tab2_false {T} (p : T -> bool) r c f i j :
  i < r -> j < c -> p (f i j) = false -> forallb p (tab2 r c f) = false.
Proof.
  intros Hi Hj Hp. destruct (forallb p (tab2 r c f)) eqn:E; [|reflexivity].
  rewrite forallb_forall in E. rewrite <- Hp. symmetry. apply E.
  unfold tab2. apply in_flat_map. exists i. split; [apply in_seq; lia|].
  apply in_map. apply in_seq. lia.
Qed.

Lemma forallb_false_nth l :
  forallb isfinite l = false ->
  exists p, p < length l /\ isfinite (nth p l NaN) = false.
Proof.
  induction l as [|y l IH]; simpl; [discriminate|].
  destruct (isfinite y) eqn:Hy; simpl.
  - intros H. destruct (IH H) as (p & Hp & Hn). exists (S p). split; [lia|auto].
  - intros _. exists 0. split; [lia|auto].
Qed.

(** The value computed for a transform with an entry that is not finite:
    the embedded data fail the input check of [pairwise_distances]. *)
Lemma loss_grad_v_nonfinite a X mask sign :
  pc X <> 0 -> length a mod pc X = 0 ->
  forallb isfinite a = false ->
  loss_grad_v a X mask sign = inl ValidationError.
Proof.
  intros Hd Hmod Hnf. unfold loss_grad_v.
  destruct (Nat.eqb_spec (pc X) 0) as [|_]; [contradiction|].
  rewrite Hmod. cbn [negb orb Nat.eqb].
  set (d := pc X) in *. set (k := length a / d).
  unfold dot_v.
  change (pr (transpose_v NaN (mk_parr k d a))) with d.
  change (pc (transpose_v NaN (mk_parr k d a))) with k.
  fold d. rewrite Nat.eqb_refl.
  unfold softmax_distances_v, pairwise_distances_v.
  cbn [pr pc pdata tabulate].
  destruct (forallb_false_nth a Hnf) as (p & Hp & Hpn).
  assert (Hlen : length a = k * d).
  { unfold k. pose proof (Nat.div_mod_eq (length a) d). nia. }
  assert (Hr : p / d < k).
  { apply Nat.Div0.div_lt_upper_bound. nia. }
  assert (Hl : p mod d < d) by (apply Nat.mod_upper_bound; assumption).
  destruct (1 <=? pr X) eqn:Hn; [|reflexivity].
  apply Nat.leb_le in Hn.
  destruct (1 <=? k) eqn:Hk; [|reflexivity].
  rewrite (forallb_tab2_false isfinite (pr X) k _ 0 (p / d));
    [reflexivity|lia|assumption|].
  apply nsum_nonfinite with (i := p mod d); [assumption|].
  apply nmul_nonfinite_r.
  unfold fget, transpose_v. rewrite get_tabulate by assumption.
  unfold get. cbn [pc pdata].
  replace (p / d * d + p mod d) with p; [assumption|].
  pose proof (Nat.div_mod_eq p d). nia.
Qed.

(** X6.  When the transform reshapes but holds a value that is not
    finite (a NaN or an infinity, as a diverging line search produces),
    the evaluator raises the error of the input check of
    [pairwise_distances] rather than returning a NaN objective, and the
    counter is not advanced. *)
Theorem X6_nonfinite_transform w A X mask sign a bx bm it :
  lookup (fheap w) (vbase A) = Some a ->
  vlen A = length a ->
  lookup (fheap w) (mbase X) = Some bx ->
  lookup (bheap w) (mbase mask) = Some bm ->
  n_iter_ (self w) = Some it ->
  cols X <> 0 -> length a mod cols X = 0 ->
  forallb isfinite a = false ->
  fst (_loss_grad_lbfgs A X mask sign w) = inl ValidationError /\
  n_iter_ (self (snd (_loss_grad_lbfgs A X mask sign w))) = Some it.
Proof.
  intros HA Hlen HX HM Hit Hd Hmod Hnf.
  destruct (loss_grad_run w A X mask sign a bx bm it HA Hlen HX HM Hit)
    as (h & es & t & _ & _ & Hrun).
  destruct (view_shape NaN X bx) as [_ Hc].
  rewrite Hrun, loss_grad_v_nonfinite by (rewrite ?Hc; assumption).
  now split.
Qed.

(** The value computed for an empty transform: the embedded data have no
    column. *)
Lemma loss_grad_v_empty X mask sign :
  pc X <> 0 -> loss_grad_v [] X mask sign = inl ValidationError.
Proof.
  intros Hd. unfold loss_grad_v.
  destruct (Nat.eqb_spec (pc X) 0) as [|_]; [contradiction|].
  cbn [length]. rewrite Nat.Div0.mod_0_l, Nat.Div0.div_0_l.
  cbn [negb orb Nat.eqb]. unfold dot_v.
  change (pr (transpose_v NaN (mk_parr 0 (pc X) []))) with (pc X).
  rewrite Nat.eqb_refl.
  unfold softmax_distances_v, pairwise_distances_v.
  cbn [pr pc pdata tabulate transpose_v]. cbn [Nat.leb andb].
  now rewrite andb_false_r.
Qed.

(** X7.  A transform without entries - the embedding dimension
    [num_dims = 0] - is refused: the embedded data would have no column,
    and the input check of [pairwise_distances] raises.  The counter is
    not advanced. *)
Theorem X7_empty_transform w A X mask sign bx bm it :
  lookup (fheap w) (vbase A) = Some [] ->
  vlen A = 0 ->
  lookup (fheap w) (mbase X) = Some bx ->
  lookup (bheap w) (mbase mask) = Some bm ->
  n_iter_ (self w) = Some it ->
  cols X <> 0 ->
  fst (_loss_grad_lbfgs A X mask sign w) = inl ValidationError /\
  n_iter_ (self (snd (_loss_grad_lbfgs A X mask sign w))) = Some it.
Proof.
  intros HA Hlen HX HM Hit Hd.
  destruct (loss_grad_run w A X mask sign [] bx bm it HA Hlen HX HM Hit)
    as (h & es & t & _ & _ & Hrun).
  destruct (view_shape NaN X bx) as [_ Hc].
  rewrite Hrun, loss_grad_v_empty by (rewrite ?Hc; assumption).
  now split.
Qed.

(** ** What the evaluator prints *)

Ltac split_quiet :=
  match goal with
  | |- context [dot_v ?a ?b] => destruct (dot_v a b) eqn:?
  | |- context [softmax_distances_v ?a] =>
      destruct (softmax_distances_v a) eqn:?
  | |- context [broadcast2 ?f ?x ?y ?a ?b] =>
      destruct (broadcast2 f x y a b) eqn:?
  | |- context [fill_diagonal_v ?v ?a] =>
      destruct (fill_diagonal_v v a) eqn:?
  end; [cbv beta iota; intros _; exact Logic.I|].

(** The console and the clock after a verbose call that returns. *)
Lemma loss_grad_trace w A X mask sign a bx bm it :
  lookup (fheap w) (vbase A) = Some a ->
  vlen A = length a ->
  lookup (fheap w) (mbase X) = Some bx ->
  lookup (bheap w) (mbase mask) = Some bm ->
  n_iter_ (self w) = Some it ->
  verbose (self w) = true ->
  match loss_grad_v a (view NaN X bx) (view false mask bm) sign with
  | inr _ =>
      match objective_v a (view NaN X bx) (view false mask bm) with
      | inr u =>
          console (snd (_loss_grad_lbfgs A X mask sign w)) =
          console w ++
          progress_events it u
            (nsub (clock w (S (ticks w))) (clock w (ticks w))) /\
          ticks (snd (_loss_grad_lbfgs A X mask sign w)) = S (S (ticks w))
      | inl _ => False
      end
  | inl _ => True
  end.
Proof.
  destruct w as [fh bh s c cl tk]. norm.
  intros HA Hlen HX HM Hit Hv.
  destruct (_loss_grad_lbfgs A X mask sign (mk_world fh bh s c cl tk))
    as [r w'] eqn:E.
  revert E. unfold _loss_grad_lbfgs, loss_grad_v, objective_v.
  step get_n_iter_run.
  rewrite bind_run. unfold get_self at 1. norm. cbv beta iota.
  rewrite Hv, andb_true_r.
  set (hdr := if (it =? 0)%Z then [PrintBanner; PrintHeader] else []).
  assert (Hpre : forall k : unit -> M (num * vec),
       bind (if (it =? 0)%Z
             then print PrintBanner ;;; print PrintHeader else ret tt) k
            (mk_world fh bh s c cl tk) =
       k tt (mk_world fh bh s (c ++ hdr) cl tk)).
  { unfold hdr. destruct ((it =? 0)%Z).
    - intros k. unfold bind, print. norm. now rewrite <- app_assoc.
    - intros k. unfold bind, ret. now rewrite app_nil_r. }
  rewrite Hpre. clear Hpre.
  rewrite bind_run. unfold time_time at 1. norm. cbv beta iota.
  rewrite bind_run. unfold reshape. rewrite Hlen.
  replace (cols X) with (pc (view NaN X bx))
    by (unfold view; now destruct (tr X)).
  destruct ((pc (view NaN X bx) =? 0)
            || negb (length a mod pc (view NaN X bx) =? 0)) eqn:Hd.
  { intros _. exact Logic.I. }
  unfold ret at 1. cbv beta iota.
  step np_dot_run; split_quiet;
  step_softmax; split_quiet;
  step np_mul_mask_run; split_quiet;
  step np_sum_axis1_keepdims_run;
  step np_sum_run;
  step np_binop_run; split_quiet;
  step np_binop_run; split_quiet;
  step np_binop_run; split_quiet;
  step np_sum_axis0_run;
  step np_vmap_run;
  step fill_diagonal_run; split_quiet;
  erewrite 2 update_cons_old by solve_lookup;
  rewrite update_cons_new; unfold unview; norm;
  match goal with
  | H : fill_diagonal_v _ _ = inr _ |- _ =>
      destruct (fill_diagonal_v_shape _ _ _ H) as [<- <-]
  end;
  step np_dot_run; split_quiet;
  step np_dot_run; split_quiet;
  step np_map_run.
  cbv beta iota. rewrite bind_run.
  unfold time_time at 1, bind at 1. norm. cbv beta iota.
  rewrite bind_run. erewrite get_n_iter_run by solve_lookup.
  cbv beta iota. unfold bind at 1, print at 1. norm. cbv beta iota.
  unfold print at 1. norm.
  step get_n_iter_run.
  rewrite bind_run.
  unfold set_n_iter_, bind at 1, get_self, put_self, set_self. norm.
  cbv beta iota. rewrite bind_run. unfold ravel, ret at 1. norm.
  cbv beta iota.
  rewrite bind_run. erewrite np_vmap_run by solve_lookup.
  unfold ret, set_fheap. norm. cbv beta iota.
  intros [= <- <-]. norm. split; [|reflexivity].
  unfold progress_events. fold hdr. rewrite <- !app_assoc. reflexivity.
Qed.

Lemma objective_v_fin n d k X L M VM :
  2 <= n -> 1 <= d -> 1 <= k ->
  bdim n (pr VM) = Some n -> bdim n (pc VM) = Some n ->
  (forall i j, i < n -> j < n ->
     bget VM (bidx (pr VM) i) (bidx (pc VM) j) = M i j) ->
  objective_v (tab2 k d (fun i j => Fin (L i j))) (fin_mat n d X) VM =
  inr (Fin (spec_loss n d k X L M)).
Proof.
  intros Hn Hd Hk Hr Hc HM. unfold objective_v.
  change (pc (fin_mat n d X)) with d. rewrite length_tab2.
  rewrite Nat.Div0.mod_mul, Nat.div_mul by lia.
  destruct (Nat.eqb_spec d 0); [lia|]. simpl orb. cbv iota.
  change (mk_parr k d (tab2 k d (fun i j => Fin (L i j)))) with (fin_mat k d L).
  rewrite transpose_fin, dot_fin.
  change (Rmatmul d X (fun i j => L j i)) with (spec_Y d X L).
  rewrite softmax_fin by lia.
  change (softmax_P n (sq_dist k (spec_Y d X L))) with (spec_P n d k X L).
  rewrite (mul_mask_fin n _ VM M) by assumption.
  change (fun i j => spec_P n d k X L i j * (if M i j then 1 else 0))%R
    with (spec_PM n d k X L M).
  rewrite sum_axis1_fin, sum_col_fin. reflexivity.
Qed.

Lemma objective_v_valid w A X mask n d k a bx bm :
  valid_data w A X n d k a bx -> valid_mask w mask n bm ->
  objective_v a (view NaN X bx) (view false mask bm) =
  inr (Fin (spec_loss n d k (Rmat (view NaN X bx)) (Rflat d a)
              (bget (view false mask bm)))).
Proof.
  intros Hv Hm.
  destruct (valid_mask_reads w mask n bm (vd_n Hv) Hm) as (Hbr & Hbc & HM).
  destruct Hv as [Hn Hd Hk HA Hvl Hal Haf HX Hr Hc Hxl Hxf].
  destruct (view_shape false mask bm) as [Hmr Hmc].
  pose proof (objective_v_fin n d k (Rmat (view NaN X bx)) (Rflat d a)
                (bget (view false mask bm)) (view false mask bm) Hn Hd Hk)
    as Hv.
  rewrite Hmr, Hmc in Hv. specialize (Hv Hbr Hbc HM).
  rewrite <- (fin_tab2 k d a Hal Haf) in Hv.
  subst n d. rewrite <- (view_fin X bx Hxl Hxf) in Hv. exact Hv.
Qed.

(** The console and the clock after a valid verbose call. *)
Lemma evaluator_console w A X mask n d k a bx bm s it :
  valid_data w A X n d k a bx -> valid_mask w mask n bm ->
  n_iter_ (self w) = Some it ->
  verbose (self w) = true ->
  console (snd (_loss_grad_lbfgs A X mask (Fin s) w)) =
  console w ++
  progress_events it
    (Fin (spec_loss n d k (Rmat (view NaN X bx)) (Rflat d a)
            (bget (view false mask bm))))
    (nsub (clock w (S (ticks w))) (clock w (ticks w))) /\
  ticks (snd (_loss_grad_lbfgs A X mask (Fin s) w)) = S (S (ticks w)).
Proof.
  intros Hd Hm Hit Hv.
  pose proof (loss_grad_trace w A X mask (Fin s) a bx bm it (vd_A Hd)
                ltac:(rewrite (vd_vlen Hd), (vd_alen Hd); reflexivity)
                (vd_X Hd) (vm_M Hm) Hit Hv) as Ht.
  destruct (valid_mask_reads w mask n bm (vd_n Hd) Hm) as (Hbr & Hbc & HM).
  rewrite (loss_grad_v_valid w A X mask n d k a bx bm s _ Hd Hbr Hbc HM)
    in Ht.
  now rewrite (objective_v_valid w A X mask n d k a bx bm Hd Hm) in Ht.
Qed.


(** ** Where the gradient vanishes *)

Lemma Rsum_zero n f : (forall i, i < n -> f i = 0%R) -> Rsum n f = 0%R.
Proof.
  intros H. rewrite (Rsum_ext n f (fun _ => 0%R)) by assumption.
  rewrite Rsum_const. lra.
Qed.








(** ** The same-class mask *)

Lemma Reqb_sym a b : Reqb a b = Reqb b a.
Proof.
  unfold Reqb. destruct (Req_dec_T a b), (Req_dec_T b a); congruence.
Qed.

Lemma Reqb_true a b : Reqb a b = true <-> a = b.
Proof. unfold Reqb. destruct (Req_dec_T a b); split; congruence. Qed.

Lemma num_eqb_sym x0 y : num_eqb x0 y = num_eqb y x0.
Proof. destruct x0, y; simpl; auto using Reqb_sym. Qed.

Lemma num_eqb_true x0 y : num_eqb x0 y = true -> x0 = y.
Proof.
  destruct x0, y; simpl; try discriminate; auto.
  intros H. apply Reqb_true in H. now subst.
Qed.

Lemma num_eqb_refl x0 : num_eqb x0 x0 = true <-> x0 <> NaN.
Proof.
  destruct x0; simpl; split; try congruence; try discriminate.
  intros _. now apply Reqb_true.
Qed.

Lemma num_eqb_relabel f x0 y :
  (forall a b, f a = f b -> a = b) ->
  num_eqb (relabel f x0) (relabel f y) = num_eqb x0 y.
Proof.
  intros Hf. destruct x0 as [a| | |], y as [b| | |]; simpl; auto.
  unfold Reqb. destruct (Req_dec_T (f a) (f b)), (Req_dec_T a b);
    auto; [apply Hf in e|subst]; congruence.
Qed.

(** What the mask built at line 112 shows. *)
Lemma same_class_mask_reads w y ly :
  lookup (fheap w) (vbase y) = Some ly ->
  exists mask w' bm,
    same_class_mask y w = (inr mask, w') /\
    rows mask = length ly /\ cols mask = length ly /\
    lookup (bheap w') (mbase mask) = Some bm /\
    bm = pdata (same_class_v ly) /\
    fheap w' = fheap w /\
    forall i j, i < length ly -> j < length ly ->
      bget (view false mask bm) i j =
      num_eqb (nth i ly NaN) (nth j ly NaN).
Proof.
  intros Hy. do 3 eexists.
  split; [apply (same_class_mask_run w y ly Hy)|].
  split; [reflexivity|]. split; [reflexivity|].
  split; [apply lookup_cons_new|]. split; [reflexivity|].
  split; [reflexivity|].
  intros i j Hi Hj. unfold bget, view. cbn [tr rows cols].
  match goal with
  | |- get _ ?V i j = _ =>
      change V with (tabulate (length ly) (length ly)
                       (fun i j => num_eqb (nth i ly NaN) (nth j ly NaN)))
  end.
  now rewrite get_tabulate.
Qed.

(** X10.  The mask that line 112 builds from n labels is a fresh n x n
    boolean array that leaves the float store alone.  It is symmetric and
    transitive whatever the labels are, and entry (i, i) is True exactly
    when label i is not a NaN: for the labels [fit] admits it is an
    equivalence relation on the samples. *)
Theorem X10_mask_equivalence w y ly :
  lookup (fheap w) (vbase y) = Some ly ->
  exists mask w' bm,
    same_class_mask y w = (inr mask, w') /\
    rows mask = length ly /\ cols mask = length ly /\
    lookup (bheap w') (mbase mask) = Some bm /\
    fheap w' = fheap w /\
    (forall i j, i < length ly -> j < length ly ->
       bget (view false mask bm) i j = bget (view false mask bm) j i) /\
    (forall i, i < length ly ->
       bget (view false mask bm) i i = true <-> nth i ly NaN <> NaN) /\
    (forall i j l, i < length ly -> j < length ly -> l < length ly ->
       bget (view false mask bm) i j = true ->
       bget (view false mask bm) j l = true ->
       bget (view false mask bm) i l = true).
Proof.
  intros Hy.
  destruct (same_class_mask_reads w y ly Hy)
    as (mask & w' & bm & Hrun & Hr & Hc & Hbm & _ & Hfh & HM).
  exists mask, w', bm. repeat (split; [assumption|]).
  split; [|split].
  - intros i j Hi Hj. rewrite !HM by assumption. apply num_eqb_sym.
  - intros i Hi. rewrite HM by assumption. apply num_eqb_refl.
  - intros i j l Hi Hj Hl. rewrite !HM by assumption.
    intros H1 H2. apply num_eqb_true in H1. now rewrite H1.
Qed.

(** X11.  The mask depends on which labels are equal, not on their
    values: labels recoded by an injective function give a mask of the
    same shape and contents. *)
Theorem X11_relabelling w1 w2 y1 y2 ly f :
  (forall a b, f a = f b -> a = b) ->
  lookup (fheap w1) (vbase y1) = Some ly ->
  lookup (fheap w2) (vbase y2) = Some (map (relabel f) ly) ->
  exists m1 m2 w1' w2' bm,
    same_class_mask y1 w1 = (inr m1, w1') /\
    same_class_mask y2 w2 = (inr m2, w2') /\
    rows m1 = rows m2 /\ cols m1 = cols m2 /\ tr m1 = tr m2 /\
    lookup (bheap w1') (mbase m1) = Some bm /\
    lookup (bheap w2') (mbase m2) = Some bm.
Proof.
  intros Hf H1 H2.
  exists (mk_mat (length (bheap w1)) (length ly) (length ly) false),
         (mk_mat (length (bheap w2)) (length ly) (length ly) false).
  do 2 eexists. exists (pdata (same_class_v ly)).
  split; [apply (same_class_mask_run w1 y1 ly H1)|].
  split.
  { rewrite (same_class_mask_run w2 y2 _ H2), length_map. reflexivity. }
  do 3 (split; [reflexivity|]).
  split; [apply lookup_cons_new|].
  cbn [bheap set_bheap mbase].
  replace (pdata (same_class_v ly))
    with (pdata (same_class_v (map (relabel f) ly))) at 1;
    [apply lookup_cons_new|].
  unfold same_class_v. cbn [pdata tabulate]. rewrite length_map.
  apply tab2_ext. intros i j Hi Hj.
  change NaN with (relabel f NaN) at 1 2. rewrite !map_nth.
  now apply num_eqb_relabel.
Qed.

(** ** Bounds on the initial transform *)







(** ** The neighbour probabilities *)






(** ** Moving the data *)




Section Weights.

Variables n d k : nat.
Variable X : nat -> nat -> R.
Variable L : nat -> nat -> R.
Variable M : nat -> nat -> bool.
Hypothesis Hn : 2 <= n.

Local Abbreviation P := (spec_P n d k X L).
Local Abbreviation W := (spec_W n d k X L M).
Local Abbreviation Ws := (spec_Wsym n d k X L M).






End Weights.

Section Translation.

Variables n d k : nat.
Variables X X' : nat -> nat -> R.
Variable L : nat -> nat -> R.
Variable M : nat -> nat -> bool.
Variable c : nat -> R.
Hypothesis Hn : 2 <= n.
Hypothesis Hshift : forall i b, i < n -> b < d -> X' i b = (X i b + c b)%R.










End Translation.


(** ** The transform and the metric *)





(** The embedding by the zero transform. *)
Lemma spec_Y_zero d X L i r :
  (forall b, b < d -> L r b = 0%R) -> spec_Y d X L i r = 0%R.
Proof.
  intros HL. unfold spec_Y. apply Rsum_zero. intros b Hb.
  rewrite HL by assumption. lra.
Qed.

Lemma spec_gradient_at_zero n d k X L M a b :
  (forall r c, r < k -> c < d -> L r c = 0%R) -> a < k ->
  spec_gradient n d k X L M a b = 0%R.
Proof.
  intros HL Ha. unfold spec_gradient, Rmatmul.
  rewrite Rsum_zero; [lra|]. intros l Hl.
  rewrite Rsum_zero; [lra|]. intros m Hm.
  rewrite spec_Y_zero; [lra|]. intros c Hc. now apply HL.
Qed.

(** X20.  The zero transform is a stationary point whatever the data and
    the labels are: a valid call at a transform whose entries are all 0
    returns a gradient that is zero in every entry. *)
Theorem X20_zero_transform_is_stationary w A X mask n d k a bx bm s :
  valid_call w A X mask n d k a bx bm ->
  Forall (fun v => v = Fin 0) a ->
  exists l g w',
    _loss_grad_lbfgs A X mask (Fin s) w = (inr (l, g), w') /\
    vlen g = k * d /\
    lookup (fheap w') (vbase g) = Some (tab2 k d (fun _ _ => Fin 0)).
Proof.
  intros (Hd & Hm & it & Hit) Hz.
  destruct (valid_mask_reads w mask n bm (vd_n Hd) Hm) as (Hbr & Hbc & HM).
  destruct (loss_grad_ok w A X mask n d k a bx bm s _ it Hd (vm_M Hm)
              Hbr Hbc HM Hit) as (h & es & t & Hext & Hes & Hrun).
  do 3 eexists. split; [exact Hrun|]. split; [reflexivity|].
  cbn [fheap vbase]. rewrite lookup_cons_new. f_equal.
  apply tab2_ext. intros i j Hi Hj.
  rewrite spec_gradient_at_zero; [f_equal; lra| |assumption].
  intros r c Hr Hc. unfold Rflat. rewrite Forall_forall in Hz.
  rewrite (Hz (nth (r * d + c) a NaN)); [reflexivity|].
  apply nth_In. rewrite (vd_alen Hd). nia.
Qed.

(** ** The optimizer and [fit], in full *)

(** The evaluator without [verbose]: nothing is printed. *)
Lemma evaluator_quiet w A X mask sign :
  verbose (self w) = false ->
  console (snd (_loss_grad_lbfgs A X mask sign w)) = console w.
Proof.
  intros Hv.
  destruct (loss_grad_keeps w A X mask sign w (untouched_refl w))
    as [[K _] _].
  now apply (k_quiet K).
Qed.

(** The optimizer returns what it would return on the objective of the
    specification.  It has called the evaluator [c] times; each call has
    added 1 to the counter and, under [verbose], has printed its line and
    read the clock twice. *)
Lemma run_optimizer_full X mask n d k bm M t :
  well_behaved (k * d) t ->
  forall w bx it,
    2 <= n -> 1 <= d -> 1 <= k ->
    lookup (fheap w) (mbase X) = Some bx ->
    rows X = n -> cols X = d ->
    length bx = n * d -> forallb isfinite bx = true ->
    valid_mask w mask n bm ->
    (forall i j, i < n -> j < n -> bget (view false mask bm) i j = M i j) ->
    n_iter_ (self w) = Some it ->
    exists c lines h tk,
      returns_after t
        (optimizer_result (objective n d k (Rmat (view NaN X bx)) M (-1)) t)
        c /\
      length
        (x (optimizer_result (objective n d k (Rmat (view NaN X bx)) M (-1))
              t)) = k * d /\
      length lines = c /\
      Forall (fun l => exists v, fst l = Fin v /\ (0 <= v <= INR n)%R) lines /\
      (verbose (self w) = true -> tk = ticks w + 2 * c) /\
      run_optimizer (fun a => _loss_grad_lbfgs a X mask (Fin (-1))) t w =
      (inr (optimizer_result (objective n d k (Rmat (view NaN X bx)) M (-1))
              t),
       mk_world h (bheap w) (with_n_iter_ (it + Z.of_nat c) (self w))
                (console w
                 ++ (if verbose (self w) then progress_log it lines else []))
                (clock w) tk).
Proof.
  induction 1 as [res Hlen | x0 kont Hlen Hfin Hk IH];
    intros w bx it Hn Hd Hk1 HX Hr Hc Hxl Hxf Hm HMr Hit.
  - exists 0, [], (fheap w), (ticks w).
    split; [constructor|]. split; [assumption|]. split; [reflexivity|].
    split; [constructor|]. split; [intros _; lia|]. simpl.
    rewrite Z.add_0_r, with_n_iter_same by assumption.
    destruct (verbose (self w)); rewrite app_nil_r; now destruct w.
  - simpl run_optimizer. simpl optimizer_result.
    set (w1 := set_fheap (x0 :: fheap w) w).
    set (xv := mk_vec (length (fheap w)) (length x0)).
    assert (Hvd : valid_data w1 xv X n d k x0 bx).
    { constructor; auto; solve_lookup. }
    assert (Hm1 : valid_mask w1 mask n bm).
    { destruct Hm. constructor; auto. }
    destruct (valid_mask_reads w mask n bm Hn Hm) as (Hbr & Hbc & HM).
    assert (HM' : forall i j, i < n -> j < n ->
              bget (view false mask bm) (bidx (rows mask) i)
                   (bidx (cols mask) j) = M i j).
    { intros i j Hi Hj. rewrite HM by assumption. now apply HMr. }
    destruct (loss_grad_ok w1 xv X mask n d k x0 bx bm (-1) M it Hvd
                (vm_M Hm) Hbr Hbc HM' Hit)
      as (h & es & tk & Hext & Hes & Hrun).
    set (loss := spec_loss n d k (Rmat (view NaN X bx)) (Rflat d x0) M) in *.
    set (dt := nsub (clock w1 (S (ticks w1))) (clock w1 (ticks w1))).
    assert (Hes' : es = (if verbose (self w)
                         then progress_events it (Fin loss) dt else []) /\
                   (verbose (self w) = true -> tk = S (S (ticks w)))).
    { destruct (verbose (self w)) eqn:Hv.
      - destruct (evaluator_console w1 xv X mask n d k x0 bx bm (-1) it
                    Hvd Hm1 Hit Hv) as [Hcon Htk].
        rewrite Hrun in Hcon, Htk. cbn [snd console ticks] in Hcon, Htk.
        apply app_inv_head in Hcon. split; [|auto].
        rewrite Hcon. unfold dt, loss. do 2 f_equal. unfold spec_loss.
        apply Rsum_ext. intros i Hi. apply Rsum_ext. intros j Hj.
        unfold spec_PM. now rewrite HMr.
      - pose proof (evaluator_quiet w1 xv X mask (Fin (-1)) Hv) as Hcon.
        rewrite Hrun in Hcon. cbn [snd console] in Hcon.
        rewrite <- (app_nil_r (console w1)) in Hcon at 2.
        apply app_inv_head in Hcon. split; [assumption|discriminate]. }
    destruct Hes' as [-> Htk].
    set (fg := objective n d k (Rmat (view NaN X bx)) M (-1) x0) in *.
    set (w2 := mk_world (snd fg :: h) (bheap w1)
                        (with_n_iter_ (it + 1) (self w1))
                        (console w1
                         ++ (if verbose (self w)
                             then progress_events it (Fin loss) dt else []))
                        (clock w1) tk) in *.
    assert (Hext1 : ext (fheap w) h).
    { eapply ext_trans; [|exact Hext]. unfold w1. simpl.
      apply ext_cons, ext_refl. }
    destruct (IH (fst fg) (snd fg) eq_refl ltac:(apply length_tab2)
                ltac:(apply forallb_tab2; reflexivity)
                w2 bx (it + 1)%Z Hn Hd Hk1)
      as (c & lines & h' & tk' & Hret & Hrl & Hll & Hrange & Htk' & Hrun');
      auto.
    { unfold w2. simpl. apply lookup_cons_old. eapply ext_lookup; eauto. }
    { destruct Hm. constructor; auto. }
    exists (S c), ((Fin loss, dt) :: lines), h', tk'.
    split; [econstructor; exact Hret|]. split; [assumption|].
    split; [simpl; now rewrite Hll|].
    split.
    { constructor; [|assumption]. exists loss. split; [reflexivity|].
      apply spec_loss_range. assumption. }
    split.
    { intros Hv. rewrite Htk' by exact Hv. unfold w2. cbn [ticks].
      rewrite Htk by exact Hv. unfold w1. cbn [ticks set_fheap]. lia. }
    rewrite bind_run.
    change (new_vec x0 w) with (@inr error vec xv, w1). cbv beta iota.
    rewrite bind_run, Hrun. cbv beta iota. simpl snd. simpl fst.
    rewrite bind_run.
    erewrite vsnap_run by (simpl; apply lookup_cons_new).
    cbv beta iota.
    match goal with
    | |- context [run_optimizer ?F ?T ?W] =>
        change (run_optimizer F T W)
          with (run_optimizer F (kont (fst fg) (snd fg)) w2)
    end.
    rewrite Hrun'.
    unfold w2, w1. simpl.
    replace (it + 1 + Z.of_nat c)%Z with (it + Z.pos (Pos.of_succ_nat c))%Z
      by lia.
    destruct (verbose (self w)); rewrite <- ?app_assoc; reflexivity.
Qed.

(** Lines 98-124 on valid input. *)
Lemma fit_optimize_full minimize w X y n d k bx ly :
  valid_fit_input w X y n d bx ly ->
  k = embedding_dim (self w) d -> 1 <= k ->
  (forall x0, length x0 = k * d -> forallb isfinite x0 = true ->
     well_behaved (k * d) (minimize x0 (max_iter (self w)) (tol (self w)))) ->
  exists c lines h bh tk,
    returns_after
      (minimize
         (tab2 k d (fun i j =>
            Fin (spec_L0 n (Rmat (view NaN X bx)) machine_eps i j)))
         (max_iter (self w)) (tol (self w)))
      (fit_result minimize (self w) n d (Rmat (view NaN X bx)) ly) c /\
    length (x (fit_result minimize (self w) n d (Rmat (view NaN X bx)) ly))
    = k * d /\
    length lines = c /\
    Forall (fun l => exists v, fst l = Fin v /\ (0 <= v <= INR n)%R) lines /\
    (verbose (self w) = true -> tk = S (ticks w) + 2 * c) /\
    fit_optimize minimize X y w =
    (inr (X, clock w (ticks w),
          fit_result minimize (self w) n d (Rmat (view NaN X bx)) ly),
     mk_world h bh (with_n_iter_ (Z.of_nat c) (self w))
              (console w
               ++ (if verbose (self w) then progress_log 0 lines else []))
              (clock w) tk).
Proof.
  intros Hv Hk Hk1 Hwb. unfold fit_result. rewrite <- Hk.
  pose proof (prepare_inputs_ok w X y n d bx ly Hv) as Hprep.
  destruct Hv as [Hn Hd HX Hr Hc Hxl Hxf Hy Hvl Hyl Hyf].
  destruct w as [fh bh s c cl tk]. cbn [fheap self clock ticks console] in *.
  set (L0 := tab2 k d (fun i j =>
               Fin (spec_L0 n (Rmat (view NaN X bx)) machine_eps i j))).
  set (w1 := mk_world fh bh s c cl (S tk)).
  destruct (initial_transform_ok w1 X bx n d k HX Hr Hc ltac:(lia) Hxl Hxf)
    as [l Hinit]. fold L0 in Hinit.
  set (Mb := pdata (same_class_v ly)).
  set (mask := mk_mat (length bh) (length ly) (length ly) false).
  set (w5 := mk_world (l ++ L0 :: fh) (Mb :: bh) (with_n_iter_ 0 s) c cl (S tk)).
  assert (HL0 : length L0 = k * d) by apply length_tab2.
  destruct (run_optimizer_full X mask n d k Mb (label_eq ly)
              (minimize L0 (max_iter s) (tol s))
              (Hwb L0 HL0 ltac:(apply forallb_tab2; reflexivity))
              w5 bx 0%Z Hn Hd Hk1)
    as (cnt & lines & h & tk' & Hret & Hrl & Hll & Hrange & Htk & Hrun); auto.
  { unfold w5. simpl. apply lookup_app_old. now apply lookup_cons_old. }
  { unfold w5, mask. constructor; simpl.
    - apply lookup_cons_new.
    - assumption.
    - assumption.
    - unfold Mb, same_class_v. simpl. rewrite length_tab2. now rewrite Hyl. }
  { intros i j Hi Hj. unfold bget, view, mask, Mb. cbn [tr rows cols].
    match goal with
    | |- get _ ?V i j = _ =>
        change V with (tabulate (length ly) (length ly) (label_eq ly))
    end.
    rewrite get_tabulate by lia. reflexivity. }
  exists cnt, lines, h, (Mb :: bh), tk'.
  split; [exact Hret|]. split; [exact Hrl|]. split; [exact Hll|].
  split; [exact Hrange|]. split; [exact Htk|].
  unfold fit_optimize. rewrite bind_run, Hprep. cbv beta iota zeta.
  simpl fst. simpl snd.
  rewrite bind_run. unfold get_self at 1. norm. cbv beta iota.
  rewrite bind_run. unfold time_time at 1. norm. cbv beta iota.
  fold w1. rewrite bind_run. rewrite Hc.
  change (match num_dims s with Some k0 => k0 | None => d end)
    with (embedding_dim s d). rewrite <- Hk. rewrite Hinit. cbv beta iota.
  rewrite bind_run, same_class_mask_run with (ly := ly)
    by (unfold w1; simpl; apply lookup_app_old; now apply lookup_cons_old).
  cbv beta iota. rewrite bind_run. unfold ravel. norm. unfold ret at 1.
  cbv beta iota. rewrite bind_run.
  unfold set_n_iter_, bind at 1, get_self, put_self. unfold w1. simpl.
  rewrite bind_run.
  erewrite vsnap_run by (simpl; apply lookup_app_at).
  cbv beta iota. fold mask. rewrite bind_run.
  match goal with
  | |- context [run_optimizer ?f ?t ?W] => change W with w5
  end.
  rewrite Hrun. reflexivity.
Qed.

(** [fit] on valid input. *)
Lemma fit_full minimize w X y n d k bx ly :
  valid_fit_input w X y n d bx ly ->
  k = embedding_dim (self w) d -> 1 <= k ->
  (forall x0, length x0 = k * d -> forallb isfinite x0 = true ->
     well_behaved (k * d) (minimize x0 (max_iter (self w)) (tol (self w)))) ->
  let res := fit_result minimize (self w) n d (Rmat (view NaN X bx)) ly in
  exists c lines h bh tk,
    returns_after
      (minimize
         (tab2 k d (fun i j =>
            Fin (spec_L0 n (Rmat (view NaN X bx)) machine_eps i j)))
         (max_iter (self w)) (tol (self w))) res c /\
    length lines = c /\
    Forall (fun l => exists v, fst l = Fin v /\ (0 <= v <= INR n)%R) lines /\
    (verbose (self w) = true -> tk = S (ticks w) + 2 * c) /\
    fit minimize X y w =
    (inr tt,
     mk_world (x res :: h) bh
       (with_n_iter_ (nit res)
          (with_transformer_ (mk_mat (length h) k d false) (self w)))
       (console w
        ++ (if verbose (self w) then progress_log 0 lines else [])
        ++ finish_events (self w) res (nsub (clock w tk) (clock w (ticks w))))
       (clock w) (S tk)).
Proof.
  intros Hv Hk Hk1 Hwb res.
  destruct (fit_optimize_full minimize w X y n d k bx ly Hv Hk Hk1 Hwb)
    as (c & lines & h & bh & tk & Hret & Hrl & Hll & Hrange & Htk & Hopt).
  fold res in Hret, Hrl, Hopt.
  exists c, lines, h, bh, tk.
  split; [exact Hret|]. split; [exact Hll|]. split; [exact Hrange|].
  split; [exact Htk|].
  unfold fit. rewrite bind_run, Hopt. cbv beta iota. cbn [fst snd].
  rewrite (fit_finish_run _ X (clock w (ticks w)) res d k
             (vf_cols Hv) (vf_d Hv) Hrl).
  cbn [fheap bheap self console clock ticks]. rewrite <- app_assoc.
  reflexivity.
Qed.

(** ** What [fit] learns, and what it logs *)



(** X17.  What [fit] learns depends on the contents of the data and of
    the labels and on [num_dims], [max_iter] and [tol], and on nothing
    else: not on [verbose], not on what [n_iter_] and [transformer_] held
    before (a fresh estimator and a fitted one learn the same), not on
    the clock, and not on where the arrays sit in the store. *)
Theorem X17_fit_history_free minimize w1 w2 X1 X2 y1 y2 n d k bx ly :
  valid_fit_input w1 X1 y1 n d bx ly ->
  valid_fit_input w2 X2 y2 n d bx ly ->
  tr X1 = tr X2 ->
  num_dims (self w1) = num_dims (self w2) ->
  max_iter (self w1) = max_iter (self w2) ->
  tol (self w1) = tol (self w2) ->
  k = embedding_dim (self w1) d -> 1 <= k ->
  (forall x0, length x0 = k * d -> forallb isfinite x0 = true ->
     well_behaved (k * d)
       (minimize x0 (max_iter (self w1)) (tol (self w1)))) ->
  exists w1' w2' L1 L2 buf,
    fit minimize X1 y1 w1 = (inr tt, w1') /\
    fit minimize X2 y2 w2 = (inr tt, w2') /\
    transformer_ (self w1') = Some L1 /\
    transformer_ (self w2') = Some L2 /\
    rows L1 = rows L2 /\ cols L1 = cols L2 /\ tr L1 = tr L2 /\
    lookup (fheap w1') (mbase L1) = Some buf /\
    lookup (fheap w2') (mbase L2) = Some buf /\
    n_iter_ (self w1') = n_iter_ (self w2').
Proof.
  intros Hv1 Hv2 Htr Hnd Hmi Htl Hk Hk1 Hwb.
  assert (Hk2 : k = embedding_dim (self w2) d).
  { unfold embedding_dim in *. now rewrite <- Hnd. }
  assert (Hview : view NaN X2 bx = view NaN X1 bx).
  { unfold view. now rewrite (vf_rows Hv1), (vf_rows Hv2), (vf_cols Hv1),
      (vf_cols Hv2), Htr. }
  assert (Hres : fit_result minimize (self w2) n d (Rmat (view NaN X2 bx)) ly
                 = fit_result minimize (self w1) n d
                     (Rmat (view NaN X1 bx)) ly).
  { unfold fit_result. now rewrite <- Hk2, <- Hk, Hview, Hmi, Htl. }
  destruct (fit_full minimize w1 X1 y1 n d k bx ly Hv1 Hk Hk1 Hwb)
    as (c1 & lines1 & h1 & bh1 & tk1 & _ & _ & _ & _ & Hfit1).
  destruct (fit_full minimize w2 X2 y2 n d k bx ly Hv2 Hk2 Hk1)
    as (c2 & lines2 & h2 & bh2 & tk2 & _ & _ & _ & _ & Hfit2).
  { rewrite <- Hmi, <- Htl. exact Hwb. }
  rewrite Hres in Hfit2.
  do 5 eexists. split; [exact Hfit1|]. split; [exact Hfit2|].
  cbn [self transformer_ n_iter_ with_n_iter_ with_transformer_ fheap].
  split; [reflexivity|]. split; [reflexivity|]. split; [reflexivity|].
  split; [reflexivity|]. split; [reflexivity|].
  split; [apply lookup_cons_new|]. split; [apply lookup_cons_new|reflexivity].
Qed.


(** ** The errors of the evaluator *)

Lemma bdim_value n r x0 : 2 <= n -> bdim n r = Some x0 -> x0 = n.
Proof.
  intros Hn. unfold bdim.
  destruct (Nat.eqb_spec n r), (Nat.eqb_spec n 1), (Nat.eqb_spec r 1);
    intros [= <-]; lia.
Qed.

Lemma broadcast2_error {A B C} (f : A -> B -> C) da db a b e :
  broadcast2 f da db a b = inl e -> e = BroadcastError.
Proof.
  unfold broadcast2.
  destruct (bdim (pr a) (pr b)), (bdim (pc a) (pc b)); congruence.
Qed.

Lemma broadcast2_shape {A B C} (f : A -> B -> C) da db a b V :
  broadcast2 f da db a b = inr V ->
  bdim (pr a) (pr b) = Some (pr V) /\ bdim (pc a) (pc b) = Some (pc V).
Proof.
  unfold broadcast2.
  destruct (bdim (pr a) (pr b)), (bdim (pc a) (pc b)); try discriminate.
  intros [= <-]. now split.
Qed.

Lemma broadcast2_square {A B C} (f : A -> B -> C) da db a b n :
  pr a = n -> pc a = n -> bdim n (pr b) = Some n -> bdim n (pc b) = Some n ->
  exists V, broadcast2 f da db a b = inr V /\ pr V = n /\ pc V = n.
Proof.
  intros Hr Hc Hbr Hbc. unfold broadcast2. rewrite Hr, Hc, Hbr, Hbc.
  eexists. split; [reflexivity|]. now split.
Qed.

Lemma dot_v_aligned a b :
  pc a = pr b ->
  exists V, dot_v a b = inr V /\ pr V = pr a /\ pc V = pc b.
Proof.
  intros H. unfold dot_v. rewrite H, Nat.eqb_refl.
  eexists. split; [reflexivity|]. now split.
Qed.

(** The softmax of lines 160-162 fails in the input check only, and gives
    a square matrix. *)
Lemma softmax_distances_v_outcome Y :
  1 <= pr Y ->
  match softmax_distances_v Y with
  | inl e => e = ValidationError
  | inr P => pr P = pr Y /\ pc P = pr Y
  end.
Proof.
  intros Hn. unfold softmax_distances_v, pairwise_distances_v.
  destruct (_ && _); [|reflexivity].
  cbn [fill_diagonal_v]. unfold logsumexp_v. cbn [map_v pr pc tabulate].
  destruct (Nat.eqb_spec (pr Y) 0); [lia|].
  rewrite length_map, length_seq. unfold broadcast2. cbn [pr pc].
  rewrite bdim_refl, bdim_1_r. cbn [map_v pr pc tabulate]. now split.
Qed.

(** Once the transform reshapes and the embedded data pass the input
    check, only the shape of the mask can make the evaluation fail. *)
Lemma loss_grad_v_outcome a X mask sign :
  2 <= pr X ->
  match loss_grad_v a X mask sign with
  | inl e =>
      (e = ReshapeError /\ (pc X = 0 \/ length a mod pc X <> 0)) \/
      (e = ValidationError /\ pc X <> 0 /\ length a mod pc X = 0) \/
      (e = BroadcastError /\ pc X <> 0 /\ length a mod pc X = 0 /\
       ~ (broadcastable (pr X) (pr mask) /\ broadcastable (pr X) (pc mask)))
  | inr _ =>
      pc X <> 0 /\ length a mod pc X = 0 /\
      broadcastable (pr X) (pr mask) /\ broadcastable (pr X) (pc mask)
  end.
Proof.
  intros Hn. unfold loss_grad_v.
  destruct (Nat.eqb_spec (pc X) 0) as [H0|H0]; [left; auto|].
  destruct (Nat.eqb_spec (length a mod pc X) 0) as [Hm|Hm];
    [|left; auto].
  cbn [orb negb].
  set (n := pr X) in *. set (d := pc X) in *. set (k := length a / d).
  destruct (dot_v_aligned X (transpose_v NaN (mk_parr k d a)) eq_refl)
    as (Y & -> & HYr & HYc).
  pose proof (softmax_distances_v_outcome Y ltac:(fold n in HYr; lia)) as HP.
  destruct (softmax_distances_v Y) as [e|P]; [right; left; auto|].
  destruct HP as [HPr HPc]. rewrite HYr in HPr, HPc. fold n in HPr, HPc.
  destruct (broadcast2 (fun x0 b => nmul x0 (of_bool b)) NaN false P mask)
    as [e|PM] eqn:HPM.
  { apply broadcast2_error in HPM as He. right; right.
    repeat (split; [assumption|]). intros [Hbr Hbc].
    unfold broadcast2 in HPM. rewrite HPr, HPc in HPM.
    apply (bdim_n n _ Hn) in Hbr, Hbc. now rewrite Hbr, Hbc in HPM. }
  destruct (broadcast2_shape _ _ _ _ _ _ HPM) as [Hbr Hbc].
  rewrite HPr in Hbr. rewrite HPc in Hbc.
  pose proof (bdim_value n _ _ Hn Hbr) as HPMr.
  pose proof (bdim_value n _ _ Hn Hbc) as HPMc.
  destruct (broadcast2_square nmul NaN NaN P (sum_axis1_v PM) n HPr HPc)
    as (pp & -> & Hppr & Hppc).
  { cbn [sum_axis1_v pr tabulate]. rewrite HPMr. apply bdim_refl. }
  { apply bdim_1_r. }
  destruct (broadcast2_square nsub NaN NaN PM pp n HPMr HPMc)
    as (W & -> & HWr & HWc).
  { rewrite Hppr. apply bdim_refl. }
  { rewrite Hppc. apply bdim_refl. }
  destruct (broadcast2_square nadd NaN NaN W (transpose_v NaN W) n HWr HWc)
    as (Ws & -> & HWsr & HWsc).
  { cbn [transpose_v pr tabulate]. rewrite HWc. apply bdim_refl. }
  { cbn [transpose_v pc tabulate]. rewrite HWr. apply bdim_refl. }
  destruct (fill_diagonal_v (map nneg (sum_axis0_v W)) Ws) as [e|Ws'] eqn:HF.
  { exfalso. unfold fill_diagonal_v, sum_axis0_v in HF. rewrite HWc in HF.
    destruct n as [|n']; [lia|]. rewrite seq_S in HF.
    destruct (seq 0 n'); discriminate. }
  destruct (fill_diagonal_v_shape _ _ _ HF) as [HFr HFc].
  destruct (dot_v_aligned (transpose_v NaN Y) Ws') as (YW & -> & HYWr & HYWc).
  { cbn [transpose_v pc tabulate]. fold n in HYr. congruence. }
  destruct (dot_v_aligned YW X) as (G & -> & _ & _).
  { fold n. congruence. }
  split; [assumption|]. split; [assumption|].
  split; eapply bdim_some; eassumption.
Qed.

(** X4.  The evaluator reads [self.n_iter_] first (line 145), before
    [self.verbose].  For live arrays and at least two samples it raises
    [AttributeError] exactly when the counter does not exist, as on an
    object that comes from the constructor; and then nothing has
    happened - no output, no clock reading, no allocation. *)
Theorem X4_evaluator_before_fit w A X mask sign a bx bm :
  lookup (fheap w) (vbase A) = Some a ->
  vlen A = length a ->
  lookup (fheap w) (mbase X) = Some bx ->
  lookup (bheap w) (mbase mask) = Some bm ->
  2 <= rows X ->
  (fst (_loss_grad_lbfgs A X mask sign w) = inl AttributeError <->
   n_iter_ (self w) = None) /\
  (n_iter_ (self w) = None -> snd (_loss_grad_lbfgs A X mask sign w) = w).
Proof.
  intros HA Hlen HX HM Hn.
  destruct (n_iter_ (self w)) as [it|] eqn:Hit.
  - split; [|discriminate]. split; [|discriminate].
    destruct (loss_grad_run w A X mask sign a bx bm it HA Hlen HX HM Hit)
      as (h & es & t & _ & _ & Hrun).
    rewrite Hrun.
    pose proof (loss_grad_v_outcome a (view NaN X bx) (view false mask bm)
                  sign) as Ho.
    destruct (view_shape NaN X bx) as [Hr _]. rewrite Hr in Ho.
    specialize (Ho Hn).
    destruct (loss_grad_v _ _ _ _) as [e|lg]; [|discriminate].
    cbn [fst]. intros [= ->].
    destruct Ho as [[? _]|[[? _]|[? _]]]; discriminate.
  - assert (Hrun : _loss_grad_lbfgs A X mask sign w = (inl AttributeError, w)).
    { unfold _loss_grad_lbfgs, bind, get_n_iter_, bind, get_self, raise.
      cbn [fst snd]. now rewrite Hit. }
    rewrite Hrun. now repeat split.
Qed.

(** X21.  The outcomes of the evaluator, whatever the arrays hold.  With
    live arrays, the counter set and at least two samples, the evaluator
    can fail in three ways only, checked in this order: a reshape error
    when the length of the transform is not a multiple of the number of
    columns of the data; the error of the input check of
    [pairwise_distances]; a broadcast error when the shape of the mask
    cannot be broadcast against n x n.  When it returns, the transform
    reshapes and the mask broadcasts. *)
Theorem X21_evaluator_outcomes w A X mask sign a bx bm it :
  lookup (fheap w) (vbase A) = Some a ->
  vlen A = length a ->
  lookup (fheap w) (mbase X) = Some bx ->
  lookup (bheap w) (mbase mask) = Some bm ->
  n_iter_ (self w) = Some it ->
  2 <= rows X ->
  match fst (_loss_grad_lbfgs A X mask sign w) with
  | inl e =>
      (e = ReshapeError /\ (cols X = 0 \/ vlen A mod cols X <> 0)) \/
      (e = ValidationError /\ cols X <> 0 /\ vlen A mod cols X = 0) \/
      (e = BroadcastError /\ cols X <> 0 /\ vlen A mod cols X = 0 /\
       ~ (broadcastable (rows X) (rows mask) /\
          broadcastable (rows X) (cols mask)))
  | inr _ =>
      cols X <> 0 /\ vlen A mod cols X = 0 /\
      broadcastable (rows X) (rows mask) /\
      broadcastable (rows X) (cols mask)
  end.
Proof.
  intros HA Hlen HX HM Hit Hn.
  destruct (loss_grad_run w A X mask sign a bx bm it HA Hlen HX HM Hit)
    as (h & es & t & _ & _ & Hrun).
  rewrite Hrun.
  pose proof (loss_grad_v_outcome a (view NaN X bx) (view false mask bm)
                sign) as Ho.
  destruct (view_shape NaN X bx) as [Hr Hc].
  destruct (view_shape false mask bm) as [Hmr Hmc].
  rewrite Hr, Hc, Hmr, Hmc, <- Hlen in Ho. specialize (Ho Hn).
  now destruct (loss_grad_v _ _ _ _).
Qed.

(** ** The formulas of the module's documentation *)





(** ** Instances *)


Lemma X3_witness :
  transformer_
    (self (snd (fit ex_nan_minimize ex_fit_X ex_fit_y ex_used_fit_world))) =
  transformer_ (self ex_used_fit_world).
Proof.
  apply (X3_fit_failure_keeps_transform ex_nan_minimize ex_fit_X ex_fit_y
           ex_used_fit_world ValidationError).
  reflexivity.
Defined.


Lemma X6_witness :
  fst (_loss_grad_lbfgs ex_A ex_X ex_mask (Fin 1) ex_nan_world) =
  inl ValidationError /\
  n_iter_ (self (snd (_loss_grad_lbfgs ex_A ex_X ex_mask (Fin 1)
                        ex_nan_world))) = Some 0%Z.
Proof.
  apply (X6_nonfinite_transform ex_nan_world ex_A ex_X ex_mask (Fin 1)
           [NaN] [Fin 0; Fin 1] [true; false; false; true] 0%Z);
    try reflexivity.
  discriminate.
Defined.

Lemma X7_witness :
  fst (_loss_grad_lbfgs ex_A_empty ex_X ex_mask (Fin 1) ex_empty_world) =
  inl ValidationError /\
  n_iter_ (self (snd (_loss_grad_lbfgs ex_A_empty ex_X ex_mask (Fin 1)
                        ex_empty_world))) = Some 0%Z.
Proof.
  apply (X7_empty_transform ex_empty_world ex_A_empty ex_X ex_mask (Fin 1)
           [Fin 0; Fin 1] [true; false; false; true] 0%Z);
    try reflexivity.
  discriminate.
Defined.



Lemma X10_witness :
  exists mask w' bm,
    same_class_mask ex_fit_y ex_fit_world = (inr mask, w') /\
    rows mask = 2 /\ cols mask = 2 /\
    lookup (bheap w') (mbase mask) = Some bm /\
    fheap w' = fheap ex_fit_world /\
    (forall i j, i < 2 -> j < 2 ->
       bget (view false mask bm) i j = bget (view false mask bm) j i) /\
    (forall i, i < 2 ->
       bget (view false mask bm) i i = true <->
       nth i [Fin 0; Fin 1] NaN <> NaN) /\
    (forall i j l, i < 2 -> j < 2 -> l < 2 ->
       bget (view false mask bm) i j = true ->
       bget (view false mask bm) j l = true ->
       bget (view false mask bm) i l = true).
Proof.
  apply (X10_mask_equivalence ex_fit_world ex_fit_y [Fin 0; Fin 1]).
  reflexivity.
Defined.

Lemma X11_witness :
  exists m1 m2 w1' w2' bm,
    same_class_mask ex_y_plain ex_label_world = (inr m1, w1') /\
    same_class_mask ex_y_recoded ex_label_world = (inr m2, w2') /\
    rows m1 = rows m2 /\ cols m1 = cols m2 /\ tr m1 = tr m2 /\
    lookup (bheap w1') (mbase m1) = Some bm /\
    lookup (bheap w2') (mbase m2) = Some bm.
Proof.
  apply (X11_relabelling ex_label_world ex_label_world ex_y_plain
           ex_y_recoded
           [Fin 0; Fin 1] (fun r => (r + 1)%R)).
  - intros a b H. lra.
  - reflexivity.
  - reflexivity.
Defined.






Lemma X17_witness :
  exists w1' w2' L1 L2 buf,
    fit ex_one_call_minimize ex_fit_X ex_fit_y ex_fit_world = (inr tt, w1') /\
    fit ex_one_call_minimize ex_fit_X ex_fit_y ex_used_fit_world =
    (inr tt, w2') /\
    transformer_ (self w1') = Some L1 /\
    transformer_ (self w2') = Some L2 /\
    rows L1 = rows L2 /\ cols L1 = cols L2 /\ tr L1 = tr L2 /\
    lookup (fheap w1') (mbase L1) = Some buf /\
    lookup (fheap w2') (mbase L2) = Some buf /\
    n_iter_ (self w1') = n_iter_ (self w2').
Proof.
  apply (X17_fit_history_free ex_one_call_minimize ex_fit_world
           ex_used_fit_world ex_fit_X ex_fit_X ex_fit_y ex_fit_y 2 1 1
           [Fin 0; Fin 1] [Fin 0; Fin 1]).
  - constructor; try reflexivity; lia.
  - constructor; try reflexivity; lia.
  - reflexivity.
  - reflexivity.
  - reflexivity.
  - reflexivity.
  - reflexivity.
  - lia.
  - intros x0 Hl Hf. constructor; [exact Hl|exact Hf|].
    intros f g _ _ _. constructor. exact Hl.
Defined.



Lemma X20_witness :
  exists l g w',
    _loss_grad_lbfgs ex_A_zero ex_X ex_mask (Fin 1) ex_world2 =
    (inr (l, g), w') /\
    vlen g = 1 * 1 /\
    lookup (fheap w') (vbase g) = Some (tab2 1 1 (fun _ _ => Fin 0)).
Proof.
  apply (X20_zero_transform_is_stationary ex_world2 ex_A_zero ex_X ex_mask
           2 1 1 [Fin 0] [Fin 0; Fin 1] [true; false; false; true] 1).
  - split; [|split].
    + constructor; try reflexivity; lia.
    + constructor; reflexivity.
    + exists 0%Z. reflexivity.
  - repeat constructor.
Defined.


Lemma X4_witness :
  (fst (_loss_grad_lbfgs ex_A ex_X ex_mask (Fin 1)
          (set_self (__init__ None 100 None false) ex_world)) =
   inl AttributeError <->
   n_iter_ (self (set_self (__init__ None 100 None false) ex_world)) = None) /\
  (n_iter_ (self (set_self (__init__ None 100 None false) ex_world)) = None ->
   snd (_loss_grad_lbfgs ex_A ex_X ex_mask (Fin 1)
          (set_self (__init__ None 100 None false) ex_world)) =
   set_self (__init__ None 100 None false) ex_world).
Proof.
  apply (X4_evaluator_before_fit
           (set_self (__init__ None 100 None false) ex_world)
           ex_A ex_X ex_mask (Fin 1) [Fin 1] [Fin 0; Fin 1]
           [true; false; false; true]); reflexivity.
Defined.

Lemma X21_witness :
  match fst (_loss_grad_lbfgs ex_A ex_X ex_mask (Fin 1) ex_world) with
  | inl e =>
      (e = ReshapeError /\ (cols ex_X = 0 \/ vlen ex_A mod cols ex_X <> 0)) \/
      (e = ValidationError /\ cols ex_X <> 0 /\ vlen ex_A mod cols ex_X = 0) \/
      (e = BroadcastError /\ cols ex_X <> 0 /\ vlen ex_A mod cols ex_X = 0 /\
       ~ (broadcastable (rows ex_X) (rows ex_mask) /\
          broadcastable (rows ex_X) (cols ex_mask)))
  | inr _ =>
      cols ex_X <> 0 /\ vlen ex_A mod cols ex_X = 0 /\
      broadcastable (rows ex_X) (rows ex_mask) /\
      broadcastable (rows ex_X) (cols ex_mask)
  end.
Proof.
  apply (X21_evaluator_outcomes ex_world ex_A ex_X ex_mask (Fin 1)
           [Fin 1] [Fin 0; Fin 1] [true; false; false; true] 0%Z);
    reflexivity.
Defined.


